(** * SimpleVector: a shallow embedding of simple_vector.h

    The C++ class template [SimpleVector<Type>] keeps two counters
    ([size_], [capacity_]) and one owned array ([raw_ptr_]).  The embedding
    follows the header member by member:

    - [size_t] values are [N] with the 64-bit wrap-around written out;
    - the owned array is a [list] of slots, read and written by index, and an
      access outside the allocation is undefined behaviour;
    - iterators ([Type*]) are offsets from [raw_ptr_.Get()];
    - a [const Type &] or [Type &&] parameter is a [reference]: an object
      outside the vector, or a slot of the vector's own array, read at the
      point where the body reads it;
    - member functions are state transformers whose outcome is a normal
      return, a C++ exception, a failed [assert] or undefined behaviour;
    - the algorithms of <algorithm> are the element-by-element loops of the
      standard library. *)

From Stdlib Require Import NArith Lia.
From stdpp Require Import base list.

Local Open Scope N_scope.

(** ** [size_t] arithmetic *)

Module SizeT.
Definition bits : N := 64.
Definition modulus : N := 2 ^ bits.
Definition SIZE_MAX : N := modulus - 1.
(** No array object has more than [PTRDIFF_MAX] elements. *)
Definition PTRDIFF_MAX : N := 2 ^ 63 - 1.

Definition wrap (n : N) : N := n mod modulus.
Definition add (a b : N) : N := wrap (a + b).
Definition mul (a b : N) : N := wrap (a * b).
(** [++x] and [--x] on an unsigned 64-bit counter. *)
Definition incr (a : N) : N := add a 1.
Definition decr (a : N) : N := wrap (a + SIZE_MAX).
End SizeT.

(** ** Element type and build environment *)

(** What the template asks of [Type]: value initialisation ([Type{}]), move
    assignment, and for the comparison operators [==] and [<].
    [moved_from old x] is the state in which the source of [dst = std::move(src)]
    is left, where [old] was the value of [dst] and [x] the value of [src]
    (for a trivially copyable type it is [x]). *)
Class Element (T : Type) := {
  value_init : T;
  moved_from : T -> T -> T;
  op_eq : T -> T -> bool;
  op_lt : T -> T -> bool
}.

(** What the build and the run-time environment decide: whether [assert] is
    compiled out, whether [new Type[n]] is satisfied, and what a freshly
    allocated slot holds. *)
Class Build (T : Type) := {
  NDEBUG : bool;
  new_ok : N -> bool;
  new_slot : N -> nat -> T
}.

Inductive exception : Set := out_of_range | bad_alloc.

(** ** The owned array (array_ptr.h) *)

Section Buffer.
Context {T : Type} `{!Element T} `{!Build T}.

Definition len (buf : list T) : N := N.of_nat (length buf).

(** Modelled from the spec: [ArrayPtr<Type>(n)] of array_ptr.h, absent from
    the sources; "Buffer(n) allocates n default-constructed-or-uninitialized
    slots", and the allocation fails with BadAlloc when it cannot be
    satisfied.  [None] is that failure; a request above [PTRDIFF_MAX]
    elements is never satisfied. *)
Definition ArrayPtr (n : N) : option (list T) :=
  if new_ok n && (n <=? SizeT.PTRDIFF_MAX)
  then Some (new_slot n <$> seq 0 (N.to_nat n))
  else None.

(** [raw_ptr_[i]] read and written; [None] is an access outside the array. *)
Definition load (buf : list T) (i : nat) : option T := buf !! i.

Definition store (buf : list T) (i : nat) (x : T) : option (list T) :=
  if decide (i < length buf)%nat then Some (<[i:=x]> buf) else None.

(** [for (; first != last; ++first) *first = value;] run [n] times. *)
Fixpoint fill_loop (n : nat) (first : nat) (value : T) (buf : list T)
  : option (list T) :=
  match n with
  | O => Some buf
  | S n' =>
      match store buf first value with
      | Some buf' => fill_loop n' (S first) value buf'
      | None => None
      end
  end.

(** [std::fill(first, last, value)]: [first, last) must be a valid range. *)
Definition std_fill (first last : N) (value : T) (buf : list T)
  : option (list T) :=
  if first <=? last
  then fill_loop (N.to_nat (last - first)) (N.to_nat first) value buf
  else None.

(** [for (; first != last; ++first, ++d_first) *d_first = *first;] from one
    array into another, run [n] times. *)
Fixpoint copy_loop (n : nat) (src : list T) (first : nat)
         (dst : list T) (d_first : nat) : option (list T) :=
  match n with
  | O => Some dst
  | S n' =>
      match load src first with
      | Some x =>
          match store dst d_first x with
          | Some dst' => copy_loop n' src (S first) dst' (S d_first)
          | None => None
          end
      | None => None
      end
  end.

Definition std_copy (src : list T) (first last : N) (dst : list T) (d_first : N)
  : option (list T) :=
  if first <=? last
  then copy_loop (N.to_nat (last - first)) src (N.to_nat first) dst (N.to_nat d_first)
  else None.

(** [std::move(first, last, d_first)] from one array into another.  Its only
    caller, [Reserve], releases the source array right after, so the states
    in which the moved-from slots are left are not kept. *)
Definition std_move_into (src : list T) (first last : N) (dst : list T) (d_first : N)
  : option (list T) :=
  std_copy src first last dst d_first.

(** One move assignment [buf[d] = std::move(buf[s])] inside one array. *)
Definition move_assign (buf : list T) (s d : nat) : option (list T) :=
  match load buf s, load buf d with
  | Some x, Some old =>
      match store buf d x with
      | Some buf' => store buf' s (moved_from old x)
      | None => None
      end
  | _, _ => None
  end.

(** [std::move(first, last, d_first)] inside one array:
    [for (; first != last; ++first, ++d_first) d_first[0] = std::move(first[0]);] *)
Fixpoint move_loop (n : nat) (first d_first : nat) (buf : list T)
  : option (list T) :=
  match n with
  | O => Some buf
  | S n' =>
      match move_assign buf first d_first with
      | Some buf' => move_loop n' (S first) (S d_first) buf'
      | None => None
      end
  end.

Definition std_move (first last d_first : N) (buf : list T) : option (list T) :=
  if first <=? last
  then move_loop (N.to_nat (last - first)) (N.to_nat first) (N.to_nat d_first) buf
  else None.

(** [std::move_backward(first, last, d_last)] inside one array:
    [while (first != last) { --d_last; --last; d_last[0] = std::move(last[0]); }] *)
Fixpoint move_backward_loop (n : nat) (last d_last : nat) (buf : list T)
  : option (list T) :=
  match n with
  | O => Some buf
  | S n' =>
      match last, d_last with
      | S last', S d_last' =>
          match move_assign buf last' d_last' with
          | Some buf' => move_backward_loop n' last' d_last' buf'
          | None => None
          end
      | _, _ => None
      end
  end.

Definition std_move_backward (first last d_last : N) (buf : list T)
  : option (list T) :=
  if first <=? last
  then move_backward_loop (N.to_nat (last - first)) (N.to_nat last) (N.to_nat d_last) buf
  else None.

(** [std::equal(first1, last1, first2)] on the elements read from the two
    ranges; the second range must not be shorter than the first. *)
Fixpoint std_equal (r1 r2 : list T) : option bool :=
  match r1, r2 with
  | [], _ => Some true
  | x :: r1', y :: r2' => if op_eq x y then std_equal r1' r2' else Some false
  | _ :: _, [] => None
  end.

(** [std::lexicographical_compare(first1, last1, first2, last2)]:
    [for (; first1 != last1 && first2 != last2; ++first1, ++first2) {
       if (first1[0] < first2[0]) return true;
       if (first2[0] < first1[0]) return false; }
     return first1 == last1 && first2 != last2;] *)
Fixpoint std_lexicographical_compare (r1 r2 : list T) : bool :=
  match r1, r2 with
  | x :: r1', y :: r2' =>
      if op_lt x y then true
      else if op_lt y x then false
      else std_lexicographical_compare r1' r2'
  | [], _ :: _ => true
  | _, [] => false
  end.

(** The elements of [first, last), as a const iterator pair reads them. *)
Definition read_range (buf : list T) (first last : N) : option (list T) :=
  if (first <=? last) && (last <=? len buf)
  then Some (take (N.to_nat (last - first)) (drop (N.to_nat first) buf))
  else None.
End Buffer.

(** ** The vector *)

Section SimpleVector.
Context {T : Type} `{!Element T} `{!Build T}.

Record SimpleVector : Type := mkVector {
  size_ : N;
  capacity_ : N;
  raw_ptr_ : list T
}.

(** What a call does: it returns [a] and leaves the object in state [s],
    throws [e] with the object in state [s], stops at a failed [assert], or
    has undefined behaviour.  Constructors run on no object ([St := unit])
    and return the new one. *)
Inductive outcome (St A : Type) : Type :=
| Ret (a : A) (s : St)
| Throw (e : exception) (s : St)
| AssertFail
| Undefined.
Global Arguments Ret {St A} a s.
Global Arguments Throw {St A} e s.
Global Arguments AssertFail {St A}.
Global Arguments Undefined {St A}.

Definition M (A : Type) : Type := SimpleVector -> outcome SimpleVector A.

Definition ret {A} (a : A) : M A := fun s => Ret a s.

Definition bind {A B} (m : M A) (k : A -> M B) : M B :=
  fun s =>
    match m s with
    | Ret a s' => k a s'
    | Throw e s' => Throw e s'
    | AssertFail => AssertFail
    | Undefined => Undefined
    end.

Definition throw {A} (e : exception) : M A := fun s => Throw e s.

(** [assert(c)] of <cassert>. *)
Definition assert (c : bool) : M unit :=
  fun s => if NDEBUG then Ret tt s else if c then Ret tt s else AssertFail.

(** An array operation whose [None] is undefined behaviour. *)
Definition defined {A} (o : option A) : M A :=
  fun s => match o with Some a => Ret a s | None => Undefined end.

(** [ArrayPtr<Type> a(n)] as a statement: a failed allocation throws. *)
Definition new_array (n : N) : M (list T) :=
  fun s => match ArrayPtr n with Some a => Ret a s | None => Throw bad_alloc s end.

Definition get {A} (field : SimpleVector -> A) : M A := fun s => Ret (field s) s.

Definition set_size (n : N) : M unit :=
  fun s => Ret tt (mkVector n (capacity_ s) (raw_ptr_ s)).
Definition set_capacity (n : N) : M unit :=
  fun s => Ret tt (mkVector (size_ s) n (raw_ptr_ s)).
Definition set_raw_ptr (a : list T) : M unit :=
  fun s => Ret tt (mkVector (size_ s) (capacity_ s) a).
End SimpleVector.

Arguments SimpleVector T : clear implicits.
Arguments M T A : clear implicits.

Declare Scope vec_scope.
Delimit Scope vec_scope with vec.
Notation "x <- m ;; k" := (bind m (fun x => k))
  (at level 100, m at next level, k at level 200, right associativity) : vec_scope.
Notation "m ;; k" := (bind m (fun _ => k))
  (at level 100, k at level 200, right associativity) : vec_scope.

Section Members.
Context {T : Type} `{!Element T} `{!Build T}.
Local Open Scope vec_scope.

(** [using Iterator = Type *]: the offset from [raw_ptr_.Get()]. *)
Definition Iterator : Type := N.

(** [SimpleVector() noexcept = default] *)
Definition SimpleVector_default : SimpleVector T := mkVector 0 0 [].

(** [GetSize()], [GetCapacity()], [IsEmpty()] *)
Definition GetSize : M T N := get size_.
Definition GetCapacity : M T N := get capacity_.
Definition IsEmpty : M T bool := sz <- get size_ ;; ret (sz =? 0).

(** [begin()], [end()] and their const versions *)
Definition begin_ : M T Iterator := ret 0.
Definition end_ : M T Iterator := get size_.

(** [raw_ptr_[i] = x] *)
Definition assign_slot (i : N) (x : T) : M T unit :=
  buf <- get raw_ptr_ ;;
  buf' <- defined (store buf (N.to_nat i) x) ;;
  set_raw_ptr buf'.

(** [void Reserve(size_t new_capacity)] *)
Definition Reserve (new_capacity : N) : M T unit :=
  cap <- get capacity_ ;;
  if cap <=? new_capacity then
    new_items <- new_array new_capacity ;;
    first <- begin_ ;; last <- end_ ;; buf <- get raw_ptr_ ;;
    new_items' <- defined (std_move_into buf first last new_items 0) ;;
    set_raw_ptr new_items' ;;
    set_capacity new_capacity
  else ret tt.

(** [Type &operator[](std::size_t index) noexcept] *)
Definition subscript (index : N) : M T T :=
  sz <- get size_ ;;
  assert (index <? sz) ;;
  buf <- get raw_ptr_ ;;
  defined (load buf (N.to_nat index)).

(** [Type &At(size_t index)] *)
Definition At (index : N) : M T T :=
  sz <- get size_ ;;
  if sz <=? index then throw out_of_range
  else buf <- get raw_ptr_ ;; defined (load buf (N.to_nat index)).

(** [void Clear() noexcept] *)
Definition Clear : M T unit := set_size 0.

(** [void Resize(size_t new_size)] *)
Definition Resize (new_size : N) : M T unit :=
  cap <- get capacity_ ;;
  (if new_size <=? cap then
     b <- begin_ ;; sz <- get size_ ;; buf <- get raw_ptr_ ;;
     buf' <- defined (std_fill (b + sz) (b + new_size) value_init buf) ;;
     set_raw_ptr buf'
   else if cap <? new_size then
     Reserve (N.max new_size (SizeT.mul 2 cap)) ;;
     b <- begin_ ;; sz <- get size_ ;; buf <- get raw_ptr_ ;;
     buf' <- defined (std_fill (b + sz) (b + new_size) value_init buf) ;;
     set_raw_ptr buf'
   else ret tt) ;;
  set_size new_size.

(** What a [const Type &] or [Type &&] parameter of a member function refers
    to: an object that is no slot of this vector's array, given by its value,
    or slot [i] of the array that the vector owns when the call starts. *)
Inductive reference : Type :=
| outside (x : T)
| slot (i : N).

(** [raw_ptr_[d] = item] ([rvalue = false]) or [raw_ptr_[d] = std::move(item)]
    ([rvalue = true]) for a parameter [item], read at this point of the body.
    [released] tells that the array owned at the start of the call has been
    released since: a reference into it dangles, and reading through it is
    undefined behaviour. *)
Definition assign_from (d : N) (item : reference) (rvalue released : bool)
  : M T unit :=
  match item with
  | outside x => assign_slot d x
  | slot i =>
      if released then (fun _ => Undefined)
      else
        buf <- get raw_ptr_ ;;
        if rvalue then
          buf' <- defined (move_assign buf (N.to_nat i) (N.to_nat d)) ;;
          set_raw_ptr buf'
        else
          x <- defined (load buf (N.to_nat i)) ;;
          assign_slot d x
  end.

(** [void PushBack(const Type &item)] ([rvalue = false]) and
    [void PushBack(Type &&item)] ([rvalue = true]).  [item] is read after
    [Reserve], which releases the old array exactly when it takes its branch
    [new_capacity >= capacity_]. *)
Definition PushBack_ref (rvalue : bool) (item : reference) : M T unit :=
  sz <- get size_ ;; cap <- get capacity_ ;;
  (if sz <? cap then assign_from sz item rvalue false
   else
     Reserve (N.max 1 (SizeT.mul 2 cap)) ;;
     sz' <- get size_ ;;
     assign_from sz' item rvalue (cap <=? N.max 1 (SizeT.mul 2 cap))) ;;
  sz'' <- get size_ ;;
  set_size (SizeT.incr sz'').

(** [PushBack] called with an object that is not an element of this vector
    (a temporary, a variable of the caller): what the parameter refers to does
    not change during the call, and the two overloads act alike on the
    vector. *)
Definition PushBack (item : T) : M T unit := PushBack_ref false (outside item).

(** A caller's run of [PushBack] calls, one per item, in order. *)
Fixpoint PushBack_all (items : list T) : M T unit :=
  match items with
  | [] => ret tt
  | item :: rest => PushBack item ;; PushBack_all rest
  end.

(** [size_t VectorMove(ConstIterator pos)] *)
Definition VectorMove (pos : Iterator) : M T N :=
  let number_pos := pos in
  sz <- get size_ ;; cap <- get capacity_ ;;
  (if sz <? cap then
     e <- end_ ;;
     (if pos =? e then assert (pos =? e) else ret tt) ;;
     buf <- get raw_ptr_ ;;
     buf' <- defined (std_move_backward number_pos e (SizeT.add sz 1) buf) ;;
     set_raw_ptr buf'
   else if cap =? 0 then Reserve 1
   else
     Reserve (SizeT.mul 2 cap) ;;
     e <- end_ ;; sz' <- get size_ ;; buf <- get raw_ptr_ ;;
     buf' <- defined (std_move_backward number_pos e (SizeT.add sz' 1) buf) ;;
     set_raw_ptr buf') ;;
  sz'' <- get size_ ;;
  set_size (SizeT.incr sz'') ;;
  ret number_pos.

(** Whether [VectorMove], called with size [sz] and capacity [cap], releases
    the array: it does where it calls [Reserve] and [Reserve] takes its
    branch [new_capacity >= capacity_]. *)
Definition VectorMove_releases (sz cap : N) : bool :=
  if sz <? cap then false
  else if cap =? 0 then cap <=? 1
  else cap <=? SizeT.mul 2 cap.

(** [Iterator Insert(ConstIterator pos, const Type &value)] ([rvalue = false])
    and [Iterator Insert(ConstIterator pos, Type &&value)] ([rvalue = true]).
    [value] is read after [VectorMove] has shifted the elements or replaced
    the array; the capacity is read here only to tell which of the two
    happened. *)
Definition Insert_ref (rvalue : bool) (pos : Iterator) (value : reference)
  : M T Iterator :=
  b <- begin_ ;; e <- end_ ;;
  assert ((b <? pos) || (pos <? e)) ;;
  cap <- get capacity_ ;;
  number_pos <- VectorMove pos ;;
  assign_from number_pos value rvalue (VectorMove_releases e cap) ;;
  ret number_pos.

(** [Insert] called with an object that is not an element of this vector. *)
Definition Insert (pos : Iterator) (value : T) : M T Iterator :=
  Insert_ref false pos (outside value).

(** [void PopBack() noexcept] *)
Definition PopBack : M T unit :=
  empty <- IsEmpty ;;
  assert empty ;;
  sz <- get size_ ;;
  set_size (SizeT.decr sz).

(** [Iterator Erase(ConstIterator pos)] *)
Definition Erase (pos : Iterator) : M T Iterator :=
  b <- begin_ ;; e <- end_ ;;
  assert ((b <? pos) || (pos <? e)) ;;
  let it := pos in
  buf <- get raw_ptr_ ;;
  buf' <- defined (std_move (it + 1) e it buf) ;;
  set_raw_ptr buf' ;;
  sz <- get size_ ;;
  set_size (SizeT.decr sz) ;;
  ret it.
End Members.

Arguments reference T : clear implicits.

(** ** Constructors, assignment, swap *)

Section Construction.
Context {T : Type} `{!Element T} `{!Build T}.
Local Open Scope vec_scope.

(** A constructor: the member initialisers build the object ([None] when
    the [ArrayPtr] member cannot be allocated), then the body runs on it. *)
Definition construct (init : option (SimpleVector T)) (body : M T unit)
  : outcome unit (SimpleVector T) :=
  match init with
  | None => Throw bad_alloc tt
  | Some s =>
      match body s with
      | Ret _ s' => Ret s' tt
      | Throw e _ => Throw e tt
      | AssertFail => AssertFail
      | Undefined => Undefined
      end
  end.

(** [SimpleVector(ReserveProxyObj reserve)] *)
Definition SimpleVector_reserve (capacity_to_reserve : N) :=
  construct (Some SimpleVector_default) (Reserve capacity_to_reserve).

(** [SimpleVector(const SimpleVector &other)] *)
Definition SimpleVector_copy (other : SimpleVector T) :=
  construct
    (a ← ArrayPtr (size_ other);
     Some (mkVector (size_ other) (capacity_ other) a))
    (b <- begin_ ;; buf <- get raw_ptr_ ;;
     buf' <- defined (std_copy (raw_ptr_ other) 0 (size_ other) buf b) ;;
     set_raw_ptr buf').

(** [explicit SimpleVector(size_t size)] *)
Definition SimpleVector_size (size : N) :=
  construct
    (a ← ArrayPtr size; Some (mkVector size size a))
    (b <- begin_ ;; e <- end_ ;; buf <- get raw_ptr_ ;;
     buf' <- defined (std_fill b e value_init buf) ;;
     set_raw_ptr buf').

(** [SimpleVector(size_t size, const Type &value)] *)
Definition SimpleVector_fill (size : N) (value : T) :=
  construct
    (a ← ArrayPtr size; Some (mkVector size size a))
    (b <- begin_ ;; e <- end_ ;; buf <- get raw_ptr_ ;;
     buf' <- defined (std_fill b e value buf) ;;
     set_raw_ptr buf').

(** [SimpleVector(std::initializer_list<Type> init)] *)
Definition SimpleVector_init (init : list T) :=
  construct
    (a ← ArrayPtr (len init); Some (mkVector (len init) (len init) a))
    (b <- begin_ ;; buf <- get raw_ptr_ ;;
     buf' <- defined (std_copy init 0 (len init) buf b) ;;
     set_raw_ptr buf').

(** [void swap(SimpleVector &other) noexcept] on two distinct objects:
    the new states of [*this] and of [other]. *)
Definition swap (this other : SimpleVector T) : SimpleVector T * SimpleVector T :=
  (mkVector (size_ other) (capacity_ other) (raw_ptr_ other),
   mkVector (size_ this) (capacity_ this) (raw_ptr_ this)).

(** [SimpleVector(SimpleVector<Type> &&other) noexcept { swap(other); }]:
    the new object and the state in which [other] is left. *)
Definition SimpleVector_move (other : SimpleVector T)
  : SimpleVector T * SimpleVector T :=
  swap SimpleVector_default other.

(** [operator=(SimpleVector &&rhs)] with [this != &rhs] (on [this == &rhs]
    it returns at once): the new states of [*this] and of [rhs]. *)
Definition move_assignment (this rhs : SimpleVector T)
  : SimpleVector T * SimpleVector T :=
  let '(tmp, rhs') := SimpleVector_move rhs in
  let '(this', _) := swap this tmp in
  (this', rhs').

(** [operator=(const SimpleVector &rhs)] with [this != &rhs]. *)
Definition copy_assignment (rhs : SimpleVector T) : M T unit :=
  fun this =>
    match SimpleVector_copy rhs with
    | Ret tmp _ => Ret tt (fst (swap this tmp))
    | Throw e _ => Throw e this
    | AssertFail => AssertFail
    | Undefined => Undefined
    end.
End Construction.

(** ** Comparison operators *)

Section Comparison.
Context {T : Type} `{!Element T} `{!Build T}.

(** [lhs.begin(), lhs.end()] read through const iterators. *)
Definition elements (v : SimpleVector T) : option (list T) :=
  read_range (raw_ptr_ v) 0 (size_ v).

Definition operator_eq (lhs rhs : SimpleVector T) : option bool :=
  if negb (size_ lhs =? size_ rhs) then Some false
  else r1 ← elements lhs; std_equal r1 (raw_ptr_ rhs).

Definition operator_ne (lhs rhs : SimpleVector T) : option bool :=
  negb <$> operator_eq lhs rhs.

Definition operator_lt (lhs rhs : SimpleVector T) : option bool :=
  r1 ← elements lhs; r2 ← elements rhs;
  Some (std_lexicographical_compare r1 r2).

Definition operator_le (lhs rhs : SimpleVector T) : option bool :=
  negb <$> operator_lt rhs lhs.

Definition operator_gt (lhs rhs : SimpleVector T) : option bool :=
  operator_lt rhs lhs.

Definition operator_ge (lhs rhs : SimpleVector T) : option bool :=
  negb <$> operator_lt lhs rhs.

(** Lexicographic order as the spec words it, to compare with
    [std_lexicographical_compare]: the ranges agree (neither element is less
    than the other) on a common prefix of length [k], and then either the
    first range ends and the second does not, or the first range has the
    smaller element at index [k]. *)
Definition lexicographic_lt (r1 r2 : list T) : Prop :=
  exists k : nat,
    (forall i x y, (i < k)%nat -> r1 !! i = Some x -> r2 !! i = Some y ->
                   op_lt x y = false /\ op_lt y x = false)
    /\ (k <= length r1)%nat /\ (k <= length r2)%nat
    /\ ((k = length r1 /\ (k < length r2)%nat)
        \/ exists x y, r1 !! k = Some x /\ r2 !! k = Some y /\ op_lt x y = true).
End Comparison.

(** ** Observations and invariants *)

Section Invariants.
Context {T : Type} `{!Element T} `{!Build T}.

(** The live elements, indices [0, size_). *)
Definition live (v : SimpleVector T) : list T :=
  take (N.to_nat (size_ v)) (raw_ptr_ v).

(** The live range lies inside the owned array. *)
Definition in_bounds (v : SimpleVector T) : Prop :=
  size_ v <= len (raw_ptr_ v).

(** The class invariant: [size_ <= capacity_], and [capacity_] is the
    number of slots of the owned array. *)
Definition representation_ok (v : SimpleVector T) : Prop :=
  size_ v <= capacity_ v /\ capacity_ v = len (raw_ptr_ v).

(** A vector that exists in memory: its array has at most [PTRDIFF_MAX]
    slots. *)
Definition well_formed (v : SimpleVector T) : Prop :=
  representation_ok v /\ capacity_ v <= SizeT.PTRDIFF_MAX.

End Invariants.

(** ** [SimpleVector<int>] in a debug and in a release build *)

#[export] Instance Element_int : Element Z := {
  value_init := 0%Z;
  moved_from := fun _ x => x;
  op_eq := Z.eqb;
  op_lt := Z.ltb
}.

(** Asserts enabled; every allocation is satisfied; a new slot holds [-1]. *)
Definition debug_build : Build Z := {|
  NDEBUG := false;
  new_ok := fun _ => true;
  new_slot := fun _ _ => (-1)%Z
|}.

(** The same with [-DNDEBUG]. *)
Definition release_build : Build Z := {|
  NDEBUG := true;
  new_ok := fun _ => true;
  new_slot := fun _ _ => (-1)%Z
|}.

(** [SimpleVector<int>] after [PushBack(1); PushBack(2); PushBack(3)] on an
    empty vector: three live elements in an array of four slots. *)
Definition v123 : SimpleVector Z := mkVector 3 4 [1; 2; 3; -1]%Z.

(** Its copy, as the copy constructor builds it. *)
Definition v123_copy : SimpleVector Z := mkVector 3 4 [1; 2; 3]%Z.

(** [SimpleVector<int>(3, 7)] and [SimpleVector<int>{7, 7, 7, 7}]. *)
Definition v777 : SimpleVector Z := mkVector 3 3 [7; 7; 7]%Z.
Definition v7777 : SimpleVector Z := mkVector 4 4 [7; 7; 7; 7]%Z.

(** ** The reserve-on-construct overload *)

(** [class ReserveProxyObj]: it only holds the capacity to reserve. *)
Record ReserveProxyObj : Set := mkReserveProxyObj { proxy_capacity_ : N }.

(** [size_t ReserveProxyObj::GetCapacity()] *)
Definition ReserveProxyObj_GetCapacity (r : ReserveProxyObj) : N :=
  proxy_capacity_ r.

(** The free function [ReserveProxyObj Reserve(size_t capacity_to_reserve)]. *)
Definition Reserve_proxy (capacity_to_reserve : N) : ReserveProxyObj :=
  mkReserveProxyObj capacity_to_reserve.

(** [SimpleVector(ReserveProxyObj reserve) { Reserve(reserve.GetCapacity()); }]
    called on a proxy object. *)
Definition SimpleVector_from_proxy {T : Type} `{!Element T} `{!Build T}
    (reserve : ReserveProxyObj) : outcome unit (SimpleVector T) :=
  SimpleVector_reserve (ReserveProxyObj_GetCapacity reserve).

(** A debug build in which no allocation is satisfied any more. *)
Definition exhausted_build : Build Z := {|
  NDEBUG := false;
  new_ok := fun _ => false;
  new_slot := fun _ _ => (-1)%Z
|}.

(** [SimpleVector<int>] with live elements 1, 2 and room for four more. *)
Definition v12 : SimpleVector Z := mkVector 2 6 [1; 2; -1; -1; -1; -1]%Z.

(** An empty [SimpleVector<int>] that still owns an array of two slots. *)
Definition v_cleared : SimpleVector Z := mkVector 0 2 [5; 6]%Z.

(** Unfolds the plumbing of [M] so that a member function reads as nested
    matches on the outcomes of its calls. *)
Ltac unfold_monad :=
  unfold bind, ret, get, throw, defined, new_array, set_size, set_capacity,
    set_raw_ptr, begin_, end_; simpl.

(** * Facts about [size_t] arithmetic *)

Module SizeTFacts.
Import SizeT.

Lemma wrap_small n : n <= SIZE_MAX -> wrap n = n.
Proof.
  intros H. unfold wrap. apply N.mod_small.
  unfold SIZE_MAX, modulus, bits in *. lia.
Qed.

Lemma mul2_small c : c <= PTRDIFF_MAX -> mul 2 c = 2 * c.
Proof.
  intros H. unfold mul. apply wrap_small.
  unfold PTRDIFF_MAX, SIZE_MAX, modulus, bits in *. lia.
Qed.

Lemma add1_small a : a < SIZE_MAX -> add a 1 = a + 1.
Proof. intros H. unfold add. apply wrap_small. lia. Qed.

Lemma incr_small a : a < SIZE_MAX -> incr a = a + 1.
Proof. apply add1_small. Qed.

Lemma decr_pos a : 0 < a -> a <= SIZE_MAX -> decr a = a - 1.
Proof.
  intros H0 H. unfold decr, wrap.
  replace (a + SIZE_MAX) with ((a - 1) + 1 * modulus)
    by (unfold SIZE_MAX, modulus, bits in *; lia).
  rewrite N.Div0.mod_add. apply N.mod_small.
  unfold SIZE_MAX, modulus, bits in *. lia.
Qed.

Lemma decr_zero : decr 0 = SIZE_MAX.
Proof. reflexivity. Qed.

Lemma PTRDIFF_MAX_lt_SIZE_MAX : PTRDIFF_MAX < SIZE_MAX.
Proof. reflexivity. Qed.
End SizeTFacts.

Section BufferFacts.
Context {T : Type} `{!Element T} `{!Build T}.
Implicit Types (buf src dst A R Z : list T) (x h value : T) (first last pos : N).

Lemma snoc_cons A x Z : A ++ x :: Z = (A ++ [x]) ++ Z.
Proof. by rewrite <- app_assoc. Qed.

Lemma length_snoc A x : length (A ++ [x]) = S (length A).
Proof. rewrite length_app. simpl. lia. Qed.

Lemma store_middle A x Z y i :
  i = length A -> store (A ++ x :: Z) i y = Some (A ++ y :: Z).
Proof.
  intros ->. unfold store.
  rewrite decide_True by (rewrite length_app; simpl; lia).
  f_equal. rewrite insert_app_r_alt by lia. by rewrite Nat.sub_diag.
Qed.

Lemma load_middle A x Z i : i = length A -> load (A ++ x :: Z) i = Some x.
Proof. intros ->. unfold load. by rewrite list_lookup_middle. Qed.

Lemma fill_loop_app value R A Z :
  fill_loop (length R) (length A) value (A ++ R ++ Z)
  = Some (A ++ replicate (length R) value ++ Z).
Proof.
  revert A. induction R as [|r R IH]; intros A; simpl; [done|].
  rewrite store_middle by done.
  rewrite (snoc_cons A value (R ++ Z)), <- (length_snoc A value), IH.
  by rewrite <- snoc_cons.
Qed.

Lemma copy_loop_app R S1 S2 D A Z :
  length D = length R ->
  copy_loop (length R) (S1 ++ R ++ S2) (length S1) (A ++ D ++ Z) (length A)
  = Some (A ++ R ++ Z).
Proof.
  revert S1 D A. induction R as [|r R IH]; intros S1 D A HD; simpl.
  - by destruct D.
  - destruct D as [|d D]; [done|]. simpl in HD.
    rewrite load_middle by done. simpl. rewrite store_middle by done.
    rewrite (snoc_cons S1 r (R ++ S2)), (snoc_cons A r (D ++ Z)).
    rewrite <- (length_snoc S1 r), <- (length_snoc A r), IH by lia.
    by rewrite <- snoc_cons.
Qed.

Lemma move_assign_down A h x Z :
  move_assign (A ++ h :: x :: Z) (S (length A)) (length A)
  = Some (A ++ x :: moved_from h x :: Z).
Proof.
  assert (load (A ++ h :: x :: Z) (S (length A)) = Some x) as H1
    by (rewrite (snoc_cons A h); apply load_middle; by rewrite length_snoc).
  assert (load (A ++ h :: x :: Z) (length A) = Some h) as H2
    by (by apply load_middle).
  unfold move_assign. rewrite H1, H2, store_middle by done.
  rewrite (snoc_cons A x (x :: Z)), store_middle by (by rewrite length_snoc).
  by rewrite <- snoc_cons.
Qed.

Lemma move_assign_up A x h Z :
  move_assign (A ++ x :: h :: Z) (length A) (S (length A))
  = Some (A ++ moved_from h x :: x :: Z).
Proof.
  assert (load (A ++ x :: h :: Z) (S (length A)) = Some h) as H1
    by (rewrite (snoc_cons A x); apply load_middle; by rewrite length_snoc).
  assert (load (A ++ x :: h :: Z) (length A) = Some x) as H2
    by (by apply load_middle).
  unfold move_assign. rewrite H1, H2.
  rewrite (snoc_cons A x (h :: Z)), store_middle by (by rewrite length_snoc).
  by rewrite <- snoc_cons, store_middle.
Qed.

Lemma move_loop_app R A h Z :
  exists r, move_loop (length R) (S (length A)) (length A) (A ++ h :: R ++ Z)
            = Some (A ++ R ++ r :: Z).
Proof.
  revert A h. induction R as [|x R IH]; intros A h; simpl; [by exists h|].
  rewrite move_assign_down.
  destruct (IH (A ++ [x]) (moved_from h x)) as [r Hr]. exists r.
  by rewrite length_snoc, <- !snoc_cons in Hr.
Qed.

Lemma move_backward_loop_app R A h Z :
  exists r, move_backward_loop (length R) (length A + length R) (S (length A + length R))
              (A ++ R ++ h :: Z)
            = Some (A ++ r :: R ++ Z).
Proof.
  revert h Z. induction R as [|x R IH] using rev_ind; intros h Z; simpl.
  - by exists h.
  - rewrite length_snoc, Nat.add_succ_r. simpl.
    rewrite <- (length_app A R), <- app_assoc. simpl.
    rewrite (app_assoc A R), move_assign_up.
    destruct (IH (moved_from h x) (x :: Z)) as [r Hr]. exists r.
    rewrite <- !app_assoc, length_app. simpl. by rewrite Hr.
Qed.

Lemma split3 buf (i j : nat) :
  (i <= j)%nat ->
  buf = take i buf ++ take (j - i) (drop i buf) ++ drop j buf.
Proof.
  intros Hij. rewrite <- (take_drop i buf) at 1. f_equal.
  rewrite <- (take_drop (j - i) (drop i buf)) at 1. f_equal.
  rewrite drop_drop. f_equal. lia.
Qed.

Lemma std_fill_valid first last value buf :
  first <= last -> last <= len buf ->
  std_fill first last value buf
  = Some (take (N.to_nat first) buf
            ++ replicate (N.to_nat (last - first)) value
            ++ drop (N.to_nat last) buf).
Proof.
  intros H1 H2. unfold std_fill, len in *.
  rewrite (proj2 (N.leb_le _ _)) by done.
  set (i := N.to_nat first). set (j := N.to_nat last).
  assert (i <= j <= length buf)%nat as Hij by lia.
  replace (N.to_nat (last - first)) with (j - i)%nat by lia.
  rewrite (split3 buf i j) at 1 by lia.
  replace i with (length (take i buf)) at 2 by (rewrite length_take; lia).
  replace (j - i)%nat with (length (take (j - i) (drop i buf))) at 1 3
    by (rewrite length_take, length_drop; lia).
  apply fill_loop_app.
Qed.

Lemma std_fill_invalid first last value buf :
  last < first -> std_fill first last value buf = None.
Proof.
  intros H1. unfold std_fill.
  by rewrite (proj2 (N.leb_gt _ _)).
Qed.

Lemma std_copy_valid src last dst :
  last <= len src -> last <= len dst ->
  std_copy src 0 last dst 0
  = Some (take (N.to_nat last) src ++ drop (N.to_nat last) dst).
Proof.
  intros H1 H2. unfold std_copy, len in *.
  rewrite (proj2 (N.leb_le 0 last)) by lia.
  rewrite N.sub_0_r. set (j := N.to_nat last).
  assert (j <= length src)%nat by lia. assert (j <= length dst)%nat by lia.
  rewrite <- (take_drop j src) at 1. rewrite <- (take_drop j dst) at 1.
  replace j with (length (take j src)) at 1 by (rewrite length_take; lia).
  apply (copy_loop_app (take j src) [] (drop j src) (take j dst) [] (drop j dst)).
  rewrite !length_take. lia.
Qed.

Lemma std_move_erase pos last buf :
  pos < last -> last <= len buf ->
  exists r,
    std_move (pos + 1) last pos buf
    = Some (take (N.to_nat pos) (take (N.to_nat last) buf)
              ++ drop (S (N.to_nat pos)) (take (N.to_nat last) buf)
              ++ r :: drop (N.to_nat last) buf).
Proof.
  intros H1 H2. unfold std_move, len in *.
  rewrite (proj2 (N.leb_le _ _)) by lia.
  set (i := N.to_nat pos). set (j := N.to_nat last).
  assert (i < j <= length buf)%nat as Hij by lia.
  replace (N.to_nat (pos + 1)) with (S i) by lia.
  replace (N.to_nat (last - (pos + 1))) with (j - S i)%nat by lia.
  set (L := take j buf).
  assert (length L = j) as HL by (unfold L; rewrite length_take; lia).
  destruct (lookup_lt_is_Some_2 L i) as [h Hh]; [lia|].
  set (A := take i L). set (R := drop (S i) L).
  assert (length A = i) as HA by (unfold A; rewrite length_take; lia).
  assert (length R = (j - S i)%nat) as HR by (unfold R; rewrite length_drop; lia).
  destruct (move_loop_app R A h (drop j buf)) as [r Hr]. exists r.
  rewrite HA, HR in Hr. rewrite <- Hr. f_equal.
  rewrite <- (take_drop j buf) at 1. fold L.
  rewrite <- (take_drop_middle L i h Hh) at 1. fold A R.
  by rewrite <- app_assoc.
Qed.

Lemma std_move_backward_insert pos last buf :
  pos <= last -> last < len buf ->
  exists r,
    std_move_backward pos last (last + 1) buf
    = Some (take (N.to_nat pos) (take (N.to_nat last) buf)
              ++ r :: drop (N.to_nat pos) (take (N.to_nat last) buf)
              ++ drop (S (N.to_nat last)) buf).
Proof.
  intros H1 H2. unfold std_move_backward, len in *.
  rewrite (proj2 (N.leb_le _ _)) by lia.
  set (i := N.to_nat pos). set (j := N.to_nat last).
  assert (i <= j < length buf)%nat as Hij by lia.
  replace (N.to_nat (last + 1)) with (S j) by lia.
  replace (N.to_nat (last - pos)) with (j - i)%nat by lia.
  destruct (lookup_lt_is_Some_2 buf j) as [h Hh]; [lia|].
  set (L := take j buf).
  assert (length L = j) as HL by (unfold L; rewrite length_take; lia).
  set (A := take i L). set (R := drop i L).
  assert (length A = i) as HA by (unfold A; rewrite length_take; lia).
  assert (length R = (j - i)%nat) as HR by (unfold R; rewrite length_drop; lia).
  destruct (move_backward_loop_app R A h (drop (S j) buf)) as [r Hr]. exists r.
  rewrite HA, HR in Hr. replace (i + (j - i))%nat with j in Hr by lia.
  rewrite <- Hr. f_equal.
  rewrite <- (take_drop j buf) at 1. fold L.
  rewrite <- (take_drop i L) at 1. fold A R.
  by rewrite (drop_S buf h j Hh), <- app_assoc.
Qed.
End BufferFacts.

(** * Facts about the member functions *)

Section MemberFacts.
Context {T : Type} `{!Element T} `{!Build T}.
Implicit Types (v : SimpleVector T) (n sz c i pos : N) (a buf A Z items : list T) (x : T).

Lemma ArrayPtr_Some n a :
  ArrayPtr n = Some a -> length a = N.to_nat n /\ n <= SizeT.PTRDIFF_MAX.
Proof.
  unfold ArrayPtr. destruct (new_ok n); simpl; [|done].
  destruct (N.leb_spec n SizeT.PTRDIFF_MAX); [|done].
  intros [= <-]. by rewrite length_fmap, length_seq.
Qed.

Lemma ArrayPtr_ok n :
  new_ok n = true -> n <= SizeT.PTRDIFF_MAX -> is_Some (ArrayPtr n).
Proof.
  intros H1 H2. unfold ArrayPtr. rewrite H1. simpl.
  rewrite (proj2 (N.leb_le _ _)) by done. eauto.
Qed.

Lemma Reserve_noop v n : n < capacity_ v -> Reserve n v = Ret tt v.
Proof.
  intros H. unfold Reserve. unfold_monad.
  by rewrite (proj2 (N.leb_gt _ _)).
Qed.

Lemma Reserve_throw v n :
  capacity_ v <= n -> ArrayPtr n = None -> Reserve n v = Throw bad_alloc v.
Proof.
  intros H Ha. unfold Reserve. unfold_monad.
  rewrite (proj2 (N.leb_le _ _)) by done. by rewrite Ha.
Qed.

Lemma Reserve_grow v n a :
  size_ v <= capacity_ v -> size_ v <= len (raw_ptr_ v) ->
  capacity_ v <= n -> ArrayPtr n = Some a ->
  Reserve n v
  = Ret tt (mkVector (size_ v) n (live v ++ drop (N.to_nat (size_ v)) a)).
Proof.
  intros Hs Hb Hn Ha. unfold Reserve, std_move_into. unfold_monad.
  rewrite (proj2 (N.leb_le _ _)) by done. rewrite Ha.
  destruct (ArrayPtr_Some _ _ Ha) as [Hl _].
  rewrite std_copy_valid by (unfold len in *; lia). done.
Qed.

Lemma live_app sz c A Z :
  length A = N.to_nat sz -> live (mkVector sz c (A ++ Z)) = A.
Proof. intros H. unfold live. simpl. rewrite <- H. apply take_app_length. Qed.

Lemma length_live v :
  size_ v <= len (raw_ptr_ v) -> length (live v) = N.to_nat (size_ v).
Proof. intros H. unfold live, len in *. rewrite length_take. lia. Qed.

Lemma take_live_app v Z :
  size_ v <= len (raw_ptr_ v) ->
  take (N.to_nat (size_ v)) (live v ++ Z) = live v.
Proof. intros H. rewrite <- (length_live v H). apply take_app_length. Qed.

Lemma assign_slot_inside v i x :
  i < len (raw_ptr_ v) ->
  assign_slot i x v
  = Ret tt (mkVector (size_ v) (capacity_ v) (<[N.to_nat i := x]> (raw_ptr_ v))).
Proof.
  intros H. unfold assign_slot, store. unfold_monad.
  by rewrite decide_True by (unfold len in *; lia).
Qed.

Theorem Reserve_spec v n :
  representation_ok v ->
  match Reserve n v with
  | Ret _ v' =>
      capacity_ v <= capacity_ v' /\ size_ v' = size_ v /\ live v' = live v
      /\ representation_ok v' /\ (n < capacity_ v -> v' = v)
  | Throw e v' =>
      e = bad_alloc /\ v' = v /\ capacity_ v <= n /\ ArrayPtr n = None
  | AssertFail | Undefined => False
  end.
Proof.
  intros [Hs Hc]. destruct (N.lt_ge_cases n (capacity_ v)) as [Hn|Hn].
  - rewrite Reserve_noop by done. by repeat split.
  - destruct (ArrayPtr n) as [a|] eqn:Ha.
    + rewrite (Reserve_grow v n a) by (rewrite <- ?Hc; done).
      destruct (ArrayPtr_Some _ _ Ha) as [Hl _].
      assert (length (live v) = N.to_nat (size_ v)) as Hlive
        by (apply length_live; by rewrite <- Hc).
      simpl. split_and!; [done|done|by apply live_app| |lia].
      split; simpl; [lia|]. unfold len.
      rewrite length_app, length_drop, Hlive. lia.
    + rewrite Reserve_throw by done. by repeat split.
Qed.

Lemma well_formed_bounds v :
  well_formed v ->
  size_ v <= capacity_ v /\ capacity_ v = len (raw_ptr_ v)
  /\ capacity_ v <= SizeT.PTRDIFF_MAX /\ size_ v <= len (raw_ptr_ v).
Proof. intros [[H1 H2] H3]. split_and!; try done. by rewrite <- H2. Qed.

Lemma PushBack_has_room v x :
  well_formed v -> size_ v < capacity_ v ->
  PushBack x v
  = Ret tt (mkVector (size_ v + 1) (capacity_ v)
              (live v ++ x :: drop (S (N.to_nat (size_ v))) (raw_ptr_ v))).
Proof.
  intros Hwf Hlt. destruct (well_formed_bounds v Hwf) as (Hs & Hc & Hp & Hb).
  unfold PushBack, PushBack_ref, assign_from. unfold_monad.
  rewrite (proj2 (N.ltb_lt _ _)) by done.
  rewrite assign_slot_inside by (rewrite <- Hc; done). simpl.
  pose proof SizeTFacts.PTRDIFF_MAX_lt_SIZE_MAX.
  rewrite SizeTFacts.incr_small by lia.
  rewrite insert_take_drop by (unfold len in *; lia). done.
Qed.

Lemma PushBack_full v x a :
  well_formed v -> size_ v = capacity_ v ->
  ArrayPtr (N.max 1 (2 * capacity_ v)) = Some a ->
  PushBack x v
  = Ret tt (mkVector (size_ v + 1) (N.max 1 (2 * capacity_ v))
              (live v ++ x :: drop (S (N.to_nat (size_ v))) a)).
Proof.
  intros Hwf Heq Ha. destruct (well_formed_bounds v Hwf) as (Hs & Hc & Hp & Hb).
  unfold PushBack, PushBack_ref, assign_from. unfold_monad.
  rewrite (proj2 (N.ltb_ge _ _)) by lia.
  rewrite SizeTFacts.mul2_small by done.
  rewrite (Reserve_grow v _ a) by (done || lia).
  destruct (ArrayPtr_Some _ _ Ha) as [Hl Hm]. simpl.
  assert (length (live v) = N.to_nat (size_ v)) as Hlive by (by apply length_live).
  rewrite assign_slot_inside; simpl.
  2:{ unfold len. rewrite length_app, length_drop, Hlive. lia. }
  pose proof SizeTFacts.PTRDIFF_MAX_lt_SIZE_MAX.
  rewrite SizeTFacts.incr_small by lia. do 2 f_equal.
  rewrite insert_app_r_alt by lia. rewrite Hlive, Nat.sub_diag. f_equal.
  destruct (lookup_lt_is_Some_2 a (N.to_nat (size_ v))) as [h Hh]; [lia|].
  by rewrite (drop_S a h _ Hh).
Qed.

Lemma PushBack_throw v x :
  well_formed v -> size_ v = capacity_ v ->
  ArrayPtr (N.max 1 (2 * capacity_ v)) = None ->
  PushBack x v = Throw bad_alloc v.
Proof.
  intros Hwf Heq Ha. destruct (well_formed_bounds v Hwf) as (Hs & Hc & Hp & Hb).
  unfold PushBack, PushBack_ref, assign_from. unfold_monad.
  rewrite (proj2 (N.ltb_ge _ _)) by lia.
  rewrite SizeTFacts.mul2_small by done.
  by rewrite Reserve_throw by (done || lia).
Qed.

Lemma PushBack_spec v x :
  well_formed v ->
  match PushBack x v with
  | Ret _ v' =>
      well_formed v' /\ size_ v' = size_ v + 1 /\ live v' = live v ++ [x]
      /\ capacity_ v' = (if size_ v <? capacity_ v then capacity_ v
                        else N.max 1 (2 * capacity_ v))
  | Throw e v' =>
      e = bad_alloc /\ v' = v /\ size_ v = capacity_ v
      /\ ArrayPtr (N.max 1 (2 * capacity_ v)) = None
  | AssertFail | Undefined => False
  end.
Proof.
  intros Hwf. destruct (well_formed_bounds v Hwf) as (Hs & Hc & Hp & Hb).
  assert (length (live v) = N.to_nat (size_ v)) as Hlive by (by apply length_live).
  destruct (N.ltb_spec (size_ v) (capacity_ v)) as [Hlt|Hge].
  - rewrite PushBack_has_room by done. simpl.
    split_and!; try done.
    + split; [split|]; simpl; try lia. unfold len in *.
      rewrite length_app, Hlive. simpl. rewrite length_drop. lia.
    + rewrite (cons_middle x), app_assoc. apply live_app.
      rewrite length_app, Hlive. simpl. lia.
  - assert (size_ v = capacity_ v) as Heq by lia.
    destruct (ArrayPtr (N.max 1 (2 * capacity_ v))) as [a|] eqn:Ha.
    + rewrite (PushBack_full v x a) by done. simpl.
      destruct (ArrayPtr_Some _ _ Ha) as [Hl Hm].
      split_and!; try done.
      * split; [split|]; simpl; try lia. unfold len in *.
        rewrite length_app, Hlive. simpl. rewrite length_drop. lia.
      * rewrite (cons_middle x), app_assoc. apply live_app.
        rewrite length_app, Hlive. simpl. lia.
    + rewrite PushBack_throw by done. done.
Qed.

Lemma PushBack_all_spec items : forall v,
  well_formed v ->
  match PushBack_all items v with
  | Ret _ v' =>
      well_formed v' /\ size_ v' = size_ v + len items
      /\ live v' = live v ++ items
  | Throw e v' =>
      e = bad_alloc /\ well_formed v'
      /\ exists k, (k < length items)%nat /\ live v' = live v ++ take k items
  | AssertFail | Undefined => False
  end.
Proof.
  induction items as [|x rest IH]; intros v Hwf; simpl.
  - unfold ret. split_and!; [done|unfold len; simpl; lia|by rewrite app_nil_r].
  - unfold bind. pose proof (PushBack_spec v x Hwf) as Hx.
    destruct (PushBack x v) as [[] v1|e v1| |]; try done.
    + destruct Hx as (Hwf1 & Hs1 & Hl1 & _).
      specialize (IH v1 Hwf1).
      destruct (PushBack_all rest v1) as [[] v2|e v2| |]; try done.
      * destruct IH as (Hwf2 & Hs2 & Hl2). split_and!; [done| |].
        -- rewrite Hs2, Hs1. unfold len. simpl. lia.
        -- by rewrite Hl2, Hl1, <- app_assoc.
      * destruct IH as (He & Hwf2 & k & Hk & Hl2). split_and!; [done|done|].
        exists (S k). split; [simpl; lia|].
        by rewrite Hl2, Hl1, <- app_assoc.
    + destruct Hx as (He & -> & _). split_and!; [done|done|].
      exists 0%nat. split; [simpl; lia|]. by rewrite app_nil_r.
Qed.

Lemma PushBack_all_returns items : forall v,
  well_formed v ->
  2 * (size_ v + len items) <= SizeT.PTRDIFF_MAX ->
  (forall n, n <= 2 * (size_ v + len items) -> new_ok n = true) ->
  exists v', PushBack_all items v = Ret tt v'.
Proof.
  induction items as [|x rest IH]; intros v Hwf Hmax Hok; simpl.
  - by exists v.
  - unfold bind. pose proof (PushBack_spec v x Hwf) as Hx.
    assert (len (x :: rest) = len rest + 1) as Hlen by (unfold len; simpl; lia).
    rewrite Hlen in Hmax, Hok.
    destruct (PushBack x v) as [[] v1|e v1| |]; try done.
    + destruct Hx as (Hwf1 & Hs1 & _).
      apply IH; [done|rewrite Hs1; lia|].
      intros n Hn. apply Hok. rewrite Hs1 in Hn. lia.
    + destruct Hx as (_ & _ & Heq & Hnone).
      destruct (ArrayPtr_ok (N.max 1 (2 * capacity_ v))) as [a Ha];
        [apply Hok; lia|lia|congruence].
Qed.

Lemma assert_true (c : bool) v : c = true -> assert c v = Ret tt v.
Proof. intros ->. unfold assert. by destruct NDEBUG. Qed.

Lemma assert_release (c : bool) v : NDEBUG = true -> assert c v = Ret tt v.
Proof. intros H. unfold assert. by rewrite H. Qed.

Lemma assert_false v : NDEBUG = false -> assert false v = AssertFail.
Proof. intros H. unfold assert. by rewrite H. Qed.

Lemma store_at A h Z x (k : nat) :
  k = length A -> store (A ++ h :: Z) k x = Some (A ++ x :: Z).
Proof. apply store_middle. Qed.

Lemma VectorMove_has_room v pos :
  well_formed v -> pos <= size_ v -> size_ v < capacity_ v ->
  exists r,
    VectorMove pos v
    = Ret pos (mkVector (size_ v + 1) (capacity_ v)
                 (take (N.to_nat pos) (live v)
                    ++ r :: drop (N.to_nat pos) (live v)
                    ++ drop (S (N.to_nat (size_ v))) (raw_ptr_ v))).
Proof.
  intros Hwf Hpos Hlt. destruct (well_formed_bounds v Hwf) as (Hs & Hc & Hp & Hb).
  destruct (std_move_backward_insert pos (size_ v) (raw_ptr_ v)) as [r Hr];
    [done|by rewrite <- Hc|]. exists r.
  pose proof SizeTFacts.PTRDIFF_MAX_lt_SIZE_MAX.
  unfold VectorMove. unfold_monad.
  rewrite (proj2 (N.ltb_lt _ _)) by done.
  assert ((if pos =? size_ v then assert (pos =? size_ v) else λ s, Ret () s) v
          = Ret tt v) as ->.
  { destruct (pos =? size_ v) eqn:E; [by apply assert_true|done]. }
  rewrite SizeTFacts.add1_small by lia.
  rewrite Hr. simpl.
  by rewrite SizeTFacts.incr_small by lia.
Qed.

Lemma VectorMove_full v pos a :
  well_formed v -> pos <= size_ v -> size_ v = capacity_ v ->
  ArrayPtr (N.max 1 (2 * capacity_ v)) = Some a ->
  exists r,
    VectorMove pos v
    = Ret pos (mkVector (size_ v + 1) (N.max 1 (2 * capacity_ v))
                 (take (N.to_nat pos) (live v)
                    ++ r :: drop (N.to_nat pos) (live v)
                    ++ drop (S (N.to_nat (size_ v))) a)).
Proof.
  intros Hwf Hpos Heq Ha. destruct (well_formed_bounds v Hwf) as (Hs & Hc & Hp & Hb).
  destruct (ArrayPtr_Some _ _ Ha) as [Hl Hm].
  assert (length (live v) = N.to_nat (size_ v)) as Hlive by (by apply length_live).
  pose proof SizeTFacts.PTRDIFF_MAX_lt_SIZE_MAX.
  unfold VectorMove. unfold_monad.
  rewrite (proj2 (N.ltb_ge _ _)) by lia.
  destruct (N.eqb_spec (capacity_ v) 0) as [E0|E0].
  - rewrite E0 in Ha. simpl in Ha.
    rewrite (Reserve_grow v 1 a) by (done || lia). simpl.
    assert (size_ v = 0) as Hz by lia. assert (pos = 0) as -> by lia.
    destruct (lookup_lt_is_Some_2 a 0) as [h Hh]; [lia|]. exists h.
    rewrite SizeTFacts.incr_small by lia. rewrite E0, Hz. simpl.
    unfold live. rewrite Hz. simpl.
    change (N.to_nat 0) with 0%nat. by rewrite (drop_S a h 0 Hh).
  - replace (N.max 1 (2 * capacity_ v)) with (2 * capacity_ v) in * by lia.
    rewrite SizeTFacts.mul2_small by done.
    rewrite (Reserve_grow v _ a) by (done || lia). simpl.
    destruct (std_move_backward_insert pos (size_ v)
                (live v ++ drop (N.to_nat (size_ v)) a)) as [r Hr];
      [done| |].
    { unfold len. rewrite length_app, length_drop, Hlive. lia. }
    exists r. rewrite SizeTFacts.add1_small by lia. rewrite Hr. simpl.
    rewrite SizeTFacts.incr_small by lia. do 2 f_equal.
    rewrite take_live_app by done.
    assert (drop (S (N.to_nat (size_ v))) (live v ++ drop (N.to_nat (size_ v)) a)
            = drop (S (N.to_nat (size_ v))) a) as ->; [|done].
    rewrite drop_app_ge by lia. rewrite drop_drop. f_equal. lia.
Qed.

Lemma VectorMove_throw v pos :
  well_formed v -> size_ v = capacity_ v ->
  ArrayPtr (N.max 1 (2 * capacity_ v)) = None ->
  VectorMove pos v = Throw bad_alloc v.
Proof.
  intros Hwf Heq Ha. destruct (well_formed_bounds v Hwf) as (Hs & Hc & Hp & Hb).
  unfold VectorMove. unfold_monad.
  rewrite (proj2 (N.ltb_ge _ _)) by lia.
  destruct (N.eqb_spec (capacity_ v) 0) as [E0|E0].
  - rewrite E0 in Ha. simpl in Ha. by rewrite Reserve_throw by (done || lia).
  - replace (N.max 1 (2 * capacity_ v)) with (2 * capacity_ v) in * by lia.
    rewrite SizeTFacts.mul2_small by done.
    by rewrite Reserve_throw by (done || lia).
Qed.

Lemma position_assert_passes v pos :
  NDEBUG = true \/ 0 < size_ v ->
  assert ((0 <? pos) || (pos <? size_ v)) v = Ret tt v.
Proof.
  intros [Hn|Hpos]; [by apply assert_release|]. apply assert_true.
  destruct (N.ltb_spec 0 pos); [done|]. simpl. apply N.ltb_lt. lia.
Qed.

Lemma Insert_from_VectorMove v pos x sz' c' A r Z :
  assert ((0 <? pos) || (pos <? size_ v)) v = Ret tt v ->
  VectorMove pos v = Ret pos (mkVector sz' c' (A ++ r :: Z)) ->
  length A = N.to_nat pos ->
  Insert pos x v = Ret pos (mkVector sz' c' (A ++ x :: Z)).
Proof.
  intros Hassert Hmove HA. unfold Insert, Insert_ref, assign_from. unfold_monad.
  rewrite Hassert, Hmove.
  unfold assign_slot. unfold_monad. by rewrite store_at.
Qed.

Lemma Insert_empty_debug v x :
  NDEBUG = false -> size_ v = 0 -> Insert 0 x v = AssertFail.
Proof.
  intros Hn Hz. unfold Insert, Insert_ref, assign_from. unfold_monad.
  rewrite Hz. simpl. by rewrite assert_false.
Qed.

Lemma Insert_spec v pos x :
  well_formed v -> pos <= size_ v -> NDEBUG = true \/ 0 < size_ v ->
  match Insert pos x v with
  | Ret it v' =>
      it = pos /\ well_formed v' /\ size_ v' = size_ v + 1
      /\ live v' = take (N.to_nat pos) (live v) ++ x :: drop (N.to_nat pos) (live v)
      /\ capacity_ v' = (if size_ v <? capacity_ v then capacity_ v
                        else N.max 1 (2 * capacity_ v))
  | Throw e v' =>
      e = bad_alloc /\ v' = v /\ size_ v = capacity_ v
      /\ ArrayPtr (N.max 1 (2 * capacity_ v)) = None
  | AssertFail | Undefined => False
  end.
Proof.
  intros Hwf Hpos Hdbg. destruct (well_formed_bounds v Hwf) as (Hs & Hc & Hp & Hb).
  assert (length (live v) = N.to_nat (size_ v)) as Hlive by (by apply length_live).
  pose proof (position_assert_passes v pos Hdbg) as Hassert.
  set (A := take (N.to_nat pos) (live v)). set (R := drop (N.to_nat pos) (live v)).
  assert (length A = N.to_nat pos) as HA by (unfold A; rewrite length_take; lia).
  assert (length R = N.to_nat (size_ v - pos)) as HR
      by (unfold R; rewrite length_drop; lia).
  assert (forall c Z, c <= SizeT.PTRDIFF_MAX -> size_ v + 1 <= c ->
            c = len (A ++ x :: R ++ Z) ->
            well_formed (mkVector (size_ v + 1) c (A ++ x :: R ++ Z))) as Hwf'.
  { intros c Z H1 H2 H3. by repeat split. }
  assert (forall c Z, live (mkVector (size_ v + 1) c (A ++ x :: R ++ Z)) = A ++ x :: R)
    as Hlive'.
  { intros c Z.
    replace (A ++ x :: R ++ Z) with ((A ++ x :: R) ++ Z) by (by rewrite <- app_assoc).
    apply live_app. rewrite length_app, HA. simpl. rewrite HR. lia. }
  destruct (N.ltb_spec (size_ v) (capacity_ v)) as [Hlt|Hge].
  - destruct (VectorMove_has_room v pos) as [r Hr]; try done.
    rewrite (Insert_from_VectorMove v pos x _ _ _ _ _ Hassert Hr HA). simpl.
    split_and!; try done. apply Hwf'; [done|lia|].
    unfold len in *. rewrite length_app, HA. simpl.
    rewrite length_app, HR, length_drop. lia.
  - assert (size_ v = capacity_ v) as Heq by lia.
    destruct (ArrayPtr (N.max 1 (2 * capacity_ v))) as [a|] eqn:Ha.
    + destruct (ArrayPtr_Some _ _ Ha) as [Hl Hm].
      destruct (VectorMove_full v pos a) as [r Hr]; try done.
      rewrite (Insert_from_VectorMove v pos x _ _ _ _ _ Hassert Hr HA). simpl.
      split_and!; try done. apply Hwf'; [done|lia|].
      unfold len in *. rewrite length_app, HA. simpl.
      rewrite length_app, HR, length_drop. lia.
    + unfold Insert, Insert_ref, assign_from. unfold_monad. rewrite Hassert.
      by rewrite VectorMove_throw.
Qed.

Lemma Erase_spec v pos :
  well_formed v -> pos < size_ v ->
  exists v',
    Erase pos v = Ret pos v'
    /\ well_formed v' /\ size_ v' = size_ v - 1
    /\ live v' = take (N.to_nat pos) (live v) ++ drop (S (N.to_nat pos)) (live v)
    /\ capacity_ v' = capacity_ v.
Proof.
  intros Hwf Hpos. destruct (well_formed_bounds v Hwf) as (Hs & Hc & Hp & Hb).
  assert (length (live v) = N.to_nat (size_ v)) as Hlive by (by apply length_live).
  destruct (std_move_erase pos (size_ v) (raw_ptr_ v)) as [r Hr]; [done|done|].
  fold (live v) in Hr.
  pose proof SizeTFacts.PTRDIFF_MAX_lt_SIZE_MAX.
  eexists. split.
  - unfold Erase. unfold_monad.
    rewrite position_assert_passes by (right; lia).
    rewrite Hr. simpl. rewrite SizeTFacts.decr_pos by lia. reflexivity.
  - simpl. set (A := take (N.to_nat pos) (live v)).
    set (R := drop (S (N.to_nat pos)) (live v)).
    assert (length A = N.to_nat pos) as HA by (unfold A; rewrite length_take; lia).
    assert (length R = N.to_nat (size_ v - 1 - pos)) as HR
      by (unfold R; rewrite length_drop; lia).
    split_and!; try done.
    + repeat split; simpl; [lia| |lia]. unfold len in *.
      rewrite !length_app, HA, HR. simpl. rewrite length_drop. lia.
    + rewrite app_assoc. apply live_app. rewrite length_app, HA, HR. lia.
Qed.

Lemma Insert_Erase_roundtrip v pos x :
  well_formed v -> pos <= size_ v -> NDEBUG = true \/ 0 < size_ v ->
  match (Insert pos x ;; Erase pos)%vec v with
  | Ret it v' => it = pos /\ size_ v' = size_ v /\ live v' = live v
  | Throw e v' =>
      e = bad_alloc /\ v' = v /\ size_ v = capacity_ v
      /\ ArrayPtr (N.max 1 (2 * capacity_ v)) = None
  | AssertFail | Undefined => False
  end.
Proof.
  intros Hwf Hpos Hdbg. pose proof (Insert_spec v pos x Hwf Hpos Hdbg) as Hi.
  destruct (well_formed_bounds v Hwf) as (Hs & Hc & Hp & Hb).
  assert (length (live v) = N.to_nat (size_ v)) as Hlive by (by apply length_live).
  unfold bind. destruct (Insert pos x v) as [it v1|e v1| |]; try done.
  destruct Hi as (-> & Hwf1 & Hs1 & Hl1 & _).
  destruct (Erase_spec v1 pos) as (v2 & -> & Hwf2 & Hs2 & Hl2 & _); [done|lia|].
  split_and!; [done|lia|]. rewrite Hl2, Hl1.
  set (A := take (N.to_nat pos) (live v)).
  assert (length A = N.to_nat pos) as HA by (unfold A; rewrite length_take; lia).
  rewrite <- HA at 1. rewrite take_app_length.
  rewrite (cons_middle x A), app_assoc.
  replace (S (N.to_nat pos)) with (length (A ++ [x]))
    by (rewrite length_app, HA; simpl; lia).
  rewrite drop_app_length. apply take_drop.
Qed.

Lemma Insert_Erase_empty_debug v x :
  NDEBUG = false -> size_ v = 0 -> (Insert 0 x ;; Erase 0)%vec v = AssertFail.
Proof. intros Hn Hz. unfold bind. by rewrite Insert_empty_debug. Qed.

Lemma Resize_shrink_undefined v n :
  size_ v <= capacity_ v -> n < size_ v -> Resize n v = Undefined.
Proof.
  intros Hs Hn. unfold Resize. unfold_monad.
  rewrite (proj2 (N.leb_le _ _)) by lia. rewrite !N.add_0_l.
  by rewrite std_fill_invalid.
Qed.

Lemma Resize_spec v n :
  well_formed v -> size_ v <= n ->
  match Resize n v with
  | Ret _ v' =>
      well_formed v' /\ size_ v' = n
      /\ live v' = live v ++ replicate (N.to_nat (n - size_ v)) value_init
      /\ capacity_ v' = (if n <=? capacity_ v then capacity_ v
                        else N.max n (2 * capacity_ v))
  | Throw e v' =>
      e = bad_alloc /\ v' = v /\ capacity_ v < n
      /\ ArrayPtr (N.max n (2 * capacity_ v)) = None
  | AssertFail | Undefined => False
  end.
Proof.
  intros Hwf Hn. destruct (well_formed_bounds v Hwf) as (Hs & Hc & Hp & Hb).
  assert (length (live v) = N.to_nat (size_ v)) as Hlive by (by apply length_live).
  set (F := replicate (N.to_nat (n - size_ v)) value_init).
  assert (length F = N.to_nat (n - size_ v)) as HF by apply length_replicate.
  assert (forall c Z, live (mkVector n c (live v ++ F ++ Z)) = live v ++ F) as Hlive'.
  { intros c Z. rewrite app_assoc. apply live_app. rewrite length_app, Hlive, HF. lia. }
  unfold Resize. unfold_monad.
  destruct (N.leb_spec n (capacity_ v)) as [Hle|Hgt].
  - rewrite !N.add_0_l.
    rewrite std_fill_valid by (rewrite <- ?Hc; done). simpl. fold (live v). fold F.
    split_and!; try done.
    repeat split; simpl; [done| |done]. unfold len in *.
    rewrite !length_app, Hlive, HF, length_drop. lia.
  - rewrite (proj2 (N.ltb_lt _ _)) by done.
    rewrite SizeTFacts.mul2_small by done.
    destruct (ArrayPtr (N.max n (2 * capacity_ v))) as [a|] eqn:Ha.
    + destruct (ArrayPtr_Some _ _ Ha) as [Hl Hm].
      rewrite (Reserve_grow v _ a) by (done || lia). simpl.
      rewrite !N.add_0_l.
      rewrite std_fill_valid; simpl.
      2: done.
      2:{ unfold len. rewrite length_app, length_drop, Hlive. lia. }
      rewrite take_live_app by done. fold F.
      split_and!; try done.
      repeat split; simpl; [lia| |done]. unfold len in *.
      rewrite !length_app, Hlive, HF, length_drop, length_app, length_drop, Hlive. lia.
    + by rewrite Reserve_throw by (done || lia).
Qed.

Lemma PopBack_debug v : NDEBUG = false -> size_ v <> 0 -> PopBack v = AssertFail.
Proof.
  intros Hn Hs. unfold PopBack, IsEmpty. unfold_monad.
  rewrite (proj2 (N.eqb_neq _ _)) by done. by rewrite assert_false.
Qed.

Lemma PopBack_release v :
  NDEBUG = true -> 0 < size_ v -> size_ v <= SizeT.SIZE_MAX ->
  PopBack v = Ret tt (mkVector (size_ v - 1) (capacity_ v) (raw_ptr_ v)).
Proof.
  intros Hn Hs Hm. unfold PopBack, IsEmpty. unfold_monad.
  rewrite assert_release by done. by rewrite SizeTFacts.decr_pos.
Qed.

Lemma PopBack_empty v :
  size_ v = 0 ->
  PopBack v = Ret tt (mkVector SizeT.SIZE_MAX (capacity_ v) (raw_ptr_ v)).
Proof.
  intros Hs. unfold PopBack, IsEmpty. unfold_monad. rewrite Hs.
  rewrite assert_true by done. by rewrite Hs.
Qed.

Lemma At_spec v i :
  size_ v <= len (raw_ptr_ v) ->
  (size_ v <= i -> At i v = Throw out_of_range v)
  /\ (i < size_ v ->
      exists x, live v !! N.to_nat i = Some x /\ At i v = Ret x v).
Proof.
  intros Hb. unfold At. unfold_monad. split; intros Hi.
  - by rewrite (proj2 (N.leb_le _ _)).
  - rewrite (proj2 (N.leb_gt _ _)) by done. unfold load.
    destruct (lookup_lt_is_Some_2 (raw_ptr_ v) (N.to_nat i)) as [x Hx];
      [unfold len in *; lia|].
    exists x. rewrite Hx. split; [|done].
    unfold live. rewrite lookup_take_lt by lia. done.
Qed.
End MemberFacts.

(** * Facts about comparison and construction *)

Section ComparisonFacts.
Context {T : Type} `{!Element T} `{!Build T}.
Implicit Types (v lhs rhs : SimpleVector T) (Z : list T).

Lemma elements_live v :
  size_ v <= len (raw_ptr_ v) -> elements v = Some (live v).
Proof.
  intros H. unfold elements, read_range, live.
  rewrite (proj2 (N.leb_le 0 _)) by lia.
  rewrite (proj2 (N.leb_le _ _)) by done. simpl.
  by rewrite N.sub_0_r.
Qed.

Lemma std_equal_prefix (r1 : list T) : forall (r2 Z : list T),
  length r1 = length r2 ->
  exists b, std_equal r1 (r2 ++ Z) = Some b
            /\ (b = true <-> Forall2 (fun x y => op_eq x y = true) r1 r2).
Proof.
  induction r1 as [|x r1 IH]; intros [|y r2] Z Hlen; simpl in *; try done.
  - exists true. split; [by destruct Z|]. split; [constructor|done].
  - destruct (op_eq x y) eqn:E.
    + destruct (IH r2 Z) as (b & -> & Hb); [lia|]. exists b. split; [done|].
      rewrite Hb. split; [by constructor|]. by inversion 1.
    + exists false. split; [done|]. split; [done|].
      inversion 1; congruence.
Qed.

Lemma std_lexicographical_compare_spec (r1 : list T) : forall r2 : list T,
  std_lexicographical_compare r1 r2 = true <-> lexicographic_lt r1 r2.
Proof.
  induction r1 as [|x r1 IH]; intros [|y r2]; simpl.
  - split; [done|]. intros (k & _ & _ & _ & [[_ Hk]|(x & y & Hx & _)]); simpl in *; [lia|done].
  - split; [|done]. intros _. exists 0%nat. split_and!; simpl; lia.
  - split; [done|].
    intros (k & _ & _ & Hk & [[_ Hk']|(x' & y' & _ & Hy & _)]); simpl in *; [lia|].
    by destruct k.
  - destruct (op_lt x y) eqn:Exy; [|destruct (op_lt y x) eqn:Eyx].
    + split; [|done]. intros _. exists 0%nat. split_and!; simpl; try lia.
      right. by exists x, y.
    + split; [done|].
      intros (k & Hpre & _ & _ & [[Hk _]|(x' & y' & Hx & Hy & Hlt)]); simpl in *; [|].
      * destruct k; [done|].
        destruct (Hpre 0%nat x y) as [_ ?]; [lia|done|done|congruence].
      * destruct k; simpl in *; [congruence|].
        destruct (Hpre 0%nat x y) as [_ ?]; [lia|done|done|congruence].
    + rewrite IH. split.
      * intros (k & Hpre & Hk1 & Hk2 & Hend). exists (S k). split_and!; simpl; try lia.
        -- intros [|i] x' y' Hi; simpl.
           ++ by intros [= <-] [= <-].
           ++ apply Hpre. lia.
        -- destruct Hend as [[-> Hlt]|Hend]; [left; lia|by right].
      * intros (k & Hpre & Hk1 & Hk2 & Hend). destruct k as [|k]; simpl in *.
        -- destruct Hend as [[? _]|(x' & y' & [= <-] & [= <-] & ?)]; [done|congruence].
        -- exists k. split_and!; try lia.
           ++ intros i x' y' Hi. apply (Hpre (S i)). lia.
           ++ destruct Hend as [[Hk Hlt]|Hend]; [left; lia|by right].
Qed.

Lemma std_lexicographical_compare_prefix (r1 Z : list T) :
  (forall x, op_lt x x = false) -> Z <> [] ->
  std_lexicographical_compare r1 (r1 ++ Z) = true.
Proof.
  intros Hirr HZ. induction r1 as [|x r1 IH]; simpl.
  - by destruct Z.
  - by rewrite Hirr.
Qed.
End ComparisonFacts.

Section ConstructionFacts.
Context {T : Type} `{!Element T} `{!Build T}.
Implicit Types (v other this rhs : SimpleVector T) (n : N) (a init : list T) (x : T).

Lemma SimpleVector_copy_throw other :
  ArrayPtr (size_ other) = None -> SimpleVector_copy other = Throw bad_alloc tt.
Proof. intros Ha. unfold SimpleVector_copy. by rewrite Ha. Qed.

Lemma SimpleVector_copy_ret other a :
  size_ other <= len (raw_ptr_ other) ->
  ArrayPtr (size_ other) = Some a ->
  SimpleVector_copy other
  = Ret (mkVector (size_ other) (capacity_ other) (live other)) tt.
Proof.
  intros Hb Ha. destruct (ArrayPtr_Some _ _ Ha) as [Hl _].
  unfold SimpleVector_copy. rewrite Ha. simpl. unfold_monad.
  rewrite std_copy_valid by (unfold len in *; lia). simpl.
  rewrite drop_ge by lia. by rewrite app_nil_r.
Qed.

Lemma SimpleVector_fill_ret n x a :
  ArrayPtr n = Some a ->
  SimpleVector_fill n x = Ret (mkVector n n (replicate (N.to_nat n) x)) tt.
Proof.
  intros Ha. destruct (ArrayPtr_Some _ _ Ha) as [Hl _].
  unfold SimpleVector_fill. rewrite Ha. simpl. unfold_monad.
  rewrite std_fill_valid by (unfold len; lia). simpl.
  rewrite N.sub_0_r, drop_ge by lia. by rewrite app_nil_r.
Qed.

Lemma SimpleVector_size_ret n a :
  ArrayPtr n = Some a ->
  SimpleVector_size n = Ret (mkVector n n (replicate (N.to_nat n) value_init)) tt.
Proof.
  intros Ha. destruct (ArrayPtr_Some _ _ Ha) as [Hl _].
  unfold SimpleVector_size. rewrite Ha. simpl. unfold_monad.
  rewrite std_fill_valid by (unfold len; lia). simpl.
  rewrite N.sub_0_r, drop_ge by lia. by rewrite app_nil_r.
Qed.

Lemma SimpleVector_init_ret init a :
  ArrayPtr (len init) = Some a ->
  SimpleVector_init init = Ret (mkVector (len init) (len init) init) tt.
Proof.
  intros Ha. destruct (ArrayPtr_Some _ _ Ha) as [Hl _].
  unfold SimpleVector_init. rewrite Ha. simpl. unfold_monad.
  rewrite std_copy_valid by (unfold len in *; lia). simpl.
  unfold len in *. rewrite Nat2N.id in *. rewrite firstn_all, drop_ge by lia. by rewrite app_nil_r.
Qed.

Lemma representation_ok_default : representation_ok (@SimpleVector_default T).
Proof. by split. Qed.

Lemma representation_ok_replicate n x :
  representation_ok (mkVector n n (replicate (N.to_nat n) x)).
Proof. split; simpl; [lia|]. unfold len. rewrite length_replicate. lia. Qed.

Lemma representation_ok_init init :
  representation_ok (mkVector (len init) (len init) init).
Proof. split; simpl; [lia|done]. Qed.

Lemma copy_breaks_representation other copy :
  representation_ok other -> size_ other < capacity_ other ->
  SimpleVector_copy other = Ret copy tt ->
  capacity_ copy = capacity_ other /\ len (raw_ptr_ copy) = size_ other
  /\ ~ representation_ok copy.
Proof.
  intros [Hs Hc] Hlt Hcopy.
  destruct (ArrayPtr (size_ other)) as [a|] eqn:Ha.
  - rewrite (SimpleVector_copy_ret other a) in Hcopy by (rewrite <- ?Hc; done).
    injection Hcopy as <-. simpl.
    assert (len (live other) = size_ other) as Hl.
    { unfold len. rewrite length_live by (by rewrite <- Hc). lia. }
    split_and!; [done|done|]. intros [_ Hc']. simpl in Hc'. lia.
  - by rewrite SimpleVector_copy_throw in Hcopy.
Qed.
End ConstructionFacts.

Section InvariantFacts.
Context {T : Type} `{!Element T} `{!Build T}.
Implicit Types (v other : SimpleVector T) (n pos : N) (x : T) (init : list T).

Lemma well_formed_representation_ok v : well_formed v -> representation_ok v.
Proof. by intros [H _]. Qed.

(** Every constructor but the copy constructor establishes the class
    invariant. *)
Lemma constructors_establish_invariant :
  representation_ok (@SimpleVector_default T)
  /\ (forall n v, SimpleVector_reserve n = Ret v tt -> representation_ok v)
  /\ (forall n v, SimpleVector_size n = Ret v tt -> representation_ok v)
  /\ (forall n x v, SimpleVector_fill n x = Ret v tt -> representation_ok v)
  /\ (forall init v, SimpleVector_init init = Ret v tt -> representation_ok v)
  /\ (forall other, representation_ok other ->
                    representation_ok (SimpleVector_move other).1
                    /\ representation_ok (SimpleVector_move other).2).
Proof.
  split_and!.
  - apply representation_ok_default.
  - intros n v. unfold SimpleVector_reserve, construct.
    pose proof (Reserve_spec SimpleVector_default n representation_ok_default) as H.
    destruct (Reserve n SimpleVector_default) as [[] v'|e v'| |]; try done.
    intros [= <-]. by destruct H as (_ & _ & _ & ? & _).
  - intros n v. destruct (ArrayPtr n) as [a|] eqn:Ha.
    + rewrite (SimpleVector_size_ret n a Ha). intros [= <-].
      apply representation_ok_replicate.
    + unfold SimpleVector_size. by rewrite Ha.
  - intros n x v. destruct (ArrayPtr n) as [a|] eqn:Ha.
    + rewrite (SimpleVector_fill_ret n x a Ha). intros [= <-].
      apply representation_ok_replicate.
    + unfold SimpleVector_fill. by rewrite Ha.
  - intros init v. destruct (ArrayPtr (len init)) as [a|] eqn:Ha.
    + rewrite (SimpleVector_init_ret init a Ha). intros [= <-].
      apply representation_ok_init.
    + unfold SimpleVector_init. by rewrite Ha.
  - intros [sz c buf] [Hs Hc]. split; [by split|apply representation_ok_default].
Qed.

(** Within their preconditions the member functions keep the class
    invariant on normal return. *)
Lemma members_keep_invariant v :
  well_formed v ->
  (forall x v', PushBack x v = Ret tt v' -> representation_ok v')
  /\ (forall pos x it v',
         pos <= size_ v -> Insert pos x v = Ret it v' -> representation_ok v')
  /\ (forall pos it v',
         pos < size_ v -> Erase pos v = Ret it v' -> representation_ok v')
  /\ (forall n v', size_ v <= n -> Resize n v = Ret tt v' -> representation_ok v')
  /\ (forall n v', Reserve n v = Ret tt v' -> representation_ok v')
  /\ (forall v', Clear v = Ret tt v' -> representation_ok v')
  /\ (forall v', 0 < size_ v -> PopBack v = Ret tt v' -> representation_ok v')
  /\ (forall other, representation_ok other ->
                    representation_ok (swap v other).1
                    /\ representation_ok (swap v other).2)
  /\ (forall other, representation_ok other ->
                    representation_ok (move_assignment v other).1
                    /\ representation_ok (move_assignment v other).2).
Proof.
  intros Hwf. destruct (well_formed_bounds v Hwf) as (Hs & Hc & Hp & Hb).
  pose proof (well_formed_representation_ok v Hwf) as Hok.
  split_and!.
  - intros x v' E. pose proof (PushBack_spec v x Hwf) as H. rewrite E in H.
    apply well_formed_representation_ok, H.
  - intros pos x it v' Hpos E.
    destruct NDEBUG eqn:Hn; [|destruct (N.eq_dec (size_ v) 0) as [Hz|Hz]].
    + pose proof (Insert_spec v pos x Hwf Hpos (or_introl Hn)) as H.
      rewrite E in H. apply well_formed_representation_ok, H.
    + assert (pos = 0) as -> by lia.
      by rewrite (Insert_empty_debug v x Hn Hz) in E.
    + pose proof (Insert_spec v pos x Hwf Hpos) as H.
      rewrite E in H. apply well_formed_representation_ok, H. right. lia.
  - intros pos it v' Hpos E.
    destruct (Erase_spec v pos Hwf Hpos) as (v2 & E2 & Hwf2 & _).
    rewrite E in E2. injection E2 as _ ->. by apply well_formed_representation_ok.
  - intros n v' Hn E. pose proof (Resize_spec v n Hwf Hn) as H. rewrite E in H.
    apply well_formed_representation_ok, H.
  - intros n v' E. pose proof (Reserve_spec v n Hok) as H. rewrite E in H.
    by destruct H as (_ & _ & _ & ? & _).
  - intros v' [= <-]. split; simpl; [lia|done].
  - intros v' Hpos E. pose proof SizeTFacts.PTRDIFF_MAX_lt_SIZE_MAX.
    destruct NDEBUG eqn:Hn.
    + rewrite PopBack_release in E by (done || lia). injection E as <-.
      split; simpl; [lia|done].
    + rewrite PopBack_debug in E by (done || lia). done.
  - intros [sz c buf] [Hs' Hc']. by repeat split.
  - intros [sz c buf] [Hs' Hc']. by repeat split.
Qed.
End InvariantFacts.

(** * The specification, generic in the element type *)

Section Claims.
Context {T : Type} `{!Element T} `{!Build T}.
Implicit Types (v lhs rhs : SimpleVector T) (n i : N) (x : T) (items : list T).

(** C5. [Reserve(n)] on any vector with [size_ <= capacity_] whose live
    range lies in its array (a vector made by the copy constructor included)
    either returns or throws [bad_alloc].  When it returns, the capacity has
    not decreased, the size and the live elements are unchanged, and for
    [n < capacity_] the whole object is unchanged, while for
    [n >= capacity_] the capacity is [n] and is the length of the new array.
    It throws only when [capacity_ <= n] and the allocation of [n] slots
    fails, and then the object is unchanged as well; so it returns whenever
    [n < capacity_] or the allocation is satisfied. *)
Theorem Reserve_never_shrinks v n :
  size_ v <= capacity_ v -> in_bounds v ->
  match Reserve n v with
  | Ret _ v' =>
      capacity_ v <= capacity_ v' /\ size_ v' = size_ v /\ live v' = live v
      /\ (forall i, i < size_ v -> raw_ptr_ v' !! N.to_nat i = raw_ptr_ v !! N.to_nat i)
      /\ size_ v' <= capacity_ v' /\ in_bounds v'
      /\ (representation_ok v -> representation_ok v')
      /\ (capacity_ v <= n -> capacity_ v' = n /\ representation_ok v')
      /\ (n < capacity_ v -> v' = v)
  | Throw e v' =>
      e = bad_alloc /\ v' = v /\ capacity_ v <= n /\ ArrayPtr n = None
  | AssertFail | Undefined => False
  end
  /\ (n < capacity_ v \/ is_Some (ArrayPtr n) -> exists v', Reserve n v = Ret tt v').
Proof.
  intros Hs Hb. unfold in_bounds in Hb.
  assert (length (live v) = N.to_nat (size_ v)) as Hlive by (by apply length_live).
  destruct (N.lt_ge_cases n (capacity_ v)) as [Hn|Hn].
  - rewrite Reserve_noop by done. split; [|by exists v].
    split_and!; try done. lia.
  - destruct (ArrayPtr n) as [a|] eqn:Ha.
    + rewrite (Reserve_grow v n a) by done.
      destruct (ArrayPtr_Some _ _ Ha) as [Hl _].
      set (v' := mkVector (size_ v) n (live v ++ drop (N.to_nat (size_ v)) a)).
      assert (len (raw_ptr_ v') = n) as Hlen.
      { unfold len. simpl. rewrite length_app, length_drop, Hlive. lia. }
      assert (representation_ok v') as Hok by (split; [simpl; lia|by rewrite Hlen]).
      split; [|by exists v'].
      split_and!; try done; simpl; try lia.
      * by apply live_app.
      * intros i Hi. rewrite lookup_app_l by lia.
        unfold live. apply lookup_take_lt. lia.
      * unfold in_bounds. rewrite Hlen. simpl. lia.
    + rewrite Reserve_throw by done. split; [done|].
      intros [Hlt|[a Ha']]; [lia|done].
Qed.

(** X22. On a well-formed vector one [PushBack(x)], with [x] an object that
    is not an element of the vector, adds 1 to the size and
    appends [x] after the live elements (so [x] is at the old size and the
    elements before it keep their indices); the capacity is unchanged when
    there was room and [max(1, 2 * capacity_)] otherwise; the call throws
    only when the vector is full and that allocation fails.  A run of
    [PushBack] calls appends the items in order, and it returns whenever
    the allocator satisfies requests up to twice the final size. *)
Theorem PushBack_appends v :
  well_formed v ->
  (forall x,
      match PushBack x v with
      | Ret _ v' =>
          well_formed v' /\ size_ v' = size_ v + 1 /\ live v' = live v ++ [x]
          /\ live v' !! N.to_nat (size_ v) = Some x
          /\ capacity_ v' = (if size_ v <? capacity_ v then capacity_ v
                            else N.max 1 (2 * capacity_ v))
      | Throw e v' =>
          e = bad_alloc /\ v' = v /\ size_ v = capacity_ v
          /\ ArrayPtr (N.max 1 (2 * capacity_ v)) = None
      | AssertFail | Undefined => False
      end)
  /\ (forall items,
         match PushBack_all items v with
         | Ret _ v' =>
             well_formed v' /\ size_ v' = size_ v + len items
             /\ live v' = live v ++ items
         | Throw e v' =>
             e = bad_alloc /\ well_formed v'
             /\ exists k, (k < length items)%nat
                          /\ live v' = live v ++ take k items
         | AssertFail | Undefined => False
         end)
  /\ (forall items,
         2 * (size_ v + len items) <= SizeT.PTRDIFF_MAX ->
         (forall n, n <= 2 * (size_ v + len items) -> new_ok n = true) ->
         exists v', PushBack_all items v = Ret tt v'
                    /\ size_ v' = size_ v + len items
                    /\ live v' = live v ++ items).
Proof.
  intros Hwf. split_and!.
  - intros x. pose proof (PushBack_spec v x Hwf) as Hx.
    destruct (PushBack x v) as [[] v'|e v'| |]; try done.
    destruct Hx as (Hwf' & Hs & Hl & Hc). split_and!; try done.
    rewrite Hl. apply list_lookup_middle.
    symmetry. apply length_live. by destruct (well_formed_bounds v Hwf) as (_ & _ & _ & ?).
  - intros items. by apply PushBack_all_spec.
  - intros items Hmax Hok.
    destruct (PushBack_all_returns items v Hwf Hmax Hok) as [v' Hv'].
    exists v'. split; [done|].
    pose proof (PushBack_all_spec items v Hwf) as Hall. rewrite Hv' in Hall.
    by destruct Hall as (_ & ? & ?).
Qed.

(** C8. For two vectors whose live ranges lie in their arrays every
    comparison returns, and: [==] is true exactly when the sizes are equal
    and the live elements are pairwise [==]; [<] is
    [std::lexicographical_compare] of the live ranges, which is the
    lexicographic order; [a <= b] is [!(b < a)], [a > b] is [b < a],
    [a >= b] is [!(a < b)], [!=] is [!(a == b)]; and, for an irreflexive
    element order, a proper prefix is less than the longer range. *)
Theorem comparison_operators lhs rhs :
  in_bounds lhs -> in_bounds rhs ->
  let lt a b := std_lexicographical_compare (live a) (live b) in
  (exists b, operator_eq lhs rhs = Some b
             /\ operator_ne lhs rhs = Some (negb b)
             /\ (b = true <->
                 size_ lhs = size_ rhs
                 /\ Forall2 (fun x y => op_eq x y = true) (live lhs) (live rhs)))
  /\ operator_lt lhs rhs = Some (lt lhs rhs)
  /\ operator_lt rhs lhs = Some (lt rhs lhs)
  /\ (lt lhs rhs = true <-> lexicographic_lt (live lhs) (live rhs))
  /\ operator_le lhs rhs = Some (negb (lt rhs lhs))
  /\ operator_gt lhs rhs = Some (lt rhs lhs)
  /\ operator_ge lhs rhs = Some (negb (lt lhs rhs))
  /\ ((forall x, op_lt x x = false) ->
      forall tail, tail <> [] -> live rhs = live lhs ++ tail -> lt lhs rhs = true).
Proof.
  intros Hl Hr lt. unfold in_bounds in *.
  assert (forall a b, in_bounds a -> in_bounds b ->
                      operator_lt a b = Some (lt a b)) as Hlt.
  { intros a b Ha Hb. unfold operator_lt.
    by rewrite (elements_live a Ha), (elements_live b Hb). }
  split_and!.
  - unfold operator_ne, operator_eq.
    destruct (N.eqb_spec (size_ lhs) (size_ rhs)) as [Heq|Hne]; simpl.
    + rewrite (elements_live lhs Hl). simpl.
      rewrite <- (take_drop (N.to_nat (size_ rhs)) (raw_ptr_ rhs)). fold (live rhs).
      destruct (std_equal_prefix (live lhs) (live rhs)
                  (drop (N.to_nat (size_ rhs)) (raw_ptr_ rhs))) as (b & Hb & Hiff).
      { rewrite !length_live by done. lia. }
      exists b. rewrite Hb. split_and!; [done|done|]. rewrite Hiff. tauto.
    + exists false. split_and!; [done|done|]. split; [done|tauto].
  - by apply Hlt.
  - by apply Hlt.
  - apply std_lexicographical_compare_spec.
  - unfold operator_le. by rewrite Hlt.
  - unfold operator_gt. by rewrite Hlt.
  - unfold operator_ge. by rewrite Hlt.
  - intros Hirr tail Htail Heq. unfold lt. rewrite Heq.
    by apply std_lexicographical_compare_prefix.
Qed.

(** C9. For a vector whose live range lies in its array, [At(i)] throws
    [out_of_range] exactly when [i >= size_], and the object is then
    unchanged; for [i < size_] it returns the live element at index [i] and
    leaves the object unchanged.  So [At(size_)] always throws and
    [At(size_ - 1)] returns the last live element of a non-empty vector. *)
Theorem At_checks_bounds v i :
  in_bounds v ->
  ((exists e v', At i v = Throw e v') <-> size_ v <= i)
  /\ (forall e v', At i v = Throw e v' -> e = out_of_range /\ v' = v)
  /\ (i < size_ v ->
      exists x, live v !! N.to_nat i = Some x /\ At i v = Ret x v)
  /\ At (size_ v) v = Throw out_of_range v
  /\ (0 < size_ v ->
      exists x, last (live v) = Some x /\ At (size_ v - 1) v = Ret x v).
Proof.
  intros Hb. unfold in_bounds in Hb.
  destruct (At_spec v i Hb) as [Hthrow Hret].
  split_and!.
  - split.
    + intros (e & v' & Hat). destruct (N.le_gt_cases (size_ v) i) as [|Hlt]; [done|].
      destruct (Hret Hlt) as (x & _ & Hx). congruence.
    + intros Hge. eauto.
  - intros e v' Hat. destruct (N.le_gt_cases (size_ v) i) as [Hge|Hlt].
    + rewrite (Hthrow Hge) in Hat. by injection Hat as <- <-.
    + destruct (Hret Hlt) as (x & _ & Hx). congruence.
  - done.
  - apply (At_spec v (size_ v) Hb). lia.
  - intros Hpos. destruct (proj2 (At_spec v (size_ v - 1) Hb)) as (x & Hx & Hat); [lia|].
    exists x. split; [|done]. rewrite last_lookup.
    rewrite length_live by done. rewrite <- Hx. f_equal. lia.
Qed.
End Claims.

(** * [SimpleVector<int>] in a debug build *)

Local Open Scope vec_scope.

Section DebugBuild.
#[local] Existing Instance debug_build.

Lemma well_formed_v123 : well_formed v123.
Proof. repeat split; [by vm_compute | by vm_compute]. Defined.

(** The run of the spec: [1,2,3], insert 9 at 1, erase at 2, resize to 5. *)
Example scenario_push_insert_erase_resize :
  (PushBack 1%Z ;; PushBack 2%Z ;; PushBack 3%Z ;; Insert 1 9%Z ;; Erase 2 ;; Resize 5)
    SimpleVector_default
  = Ret tt (mkVector 5 8 [1; 9; 3; 0; 0; -1; -1; -1]%Z).
Proof. reflexivity. Qed.

(** [SimpleVector<int>(3, 7) < SimpleVector<int>{7, 7, 7, 7}]. *)
Example scenario_shorter_sorts_first :
  SimpleVector_fill 3 7%Z = Ret v777 tt
  /\ SimpleVector_init [7; 7; 7; 7]%Z = Ret v7777 tt
  /\ operator_lt v777 v7777 = Some true.
Proof. split_and!; reflexivity. Qed.

(** C5 at [v123_copy], the vector the copy constructor builds from [v123],
    and [n = 10]. *)
Lemma Reserve_never_shrinks_witness :
  size_ v123_copy <= capacity_ v123_copy /\ in_bounds v123_copy
  /\ exists v', Reserve 10 v123_copy = Ret tt v'
                /\ capacity_ v' = 10 /\ size_ v' = 3 /\ live v' = [1; 2; 3]%Z
                /\ representation_ok v'.
Proof.
  assert (size_ v123_copy <= capacity_ v123_copy) as Hs by (by vm_compute).
  assert (in_bounds v123_copy) as Hb by (by vm_compute).
  split_and!; [exact Hs|exact Hb|].
  destruct (Reserve_never_shrinks v123_copy 10 Hs Hb) as [H Hret].
  destruct Hret as [v' Hv']; [right; by eexists|].
  rewrite Hv' in H. destruct H as (_ & Hsz & Hl & _ & _ & _ & _ & Hn & _).
  destruct Hn as [Hc Hok]; [by vm_compute|].
  exists v'. split_and!; [exact Hv'|exact Hc|exact Hsz|exact Hl|exact Hok].
Defined.

(** X22 at [v123] and the items [4, 5]. *)
Lemma PushBack_appends_witness :
  well_formed v123
  /\ exists v', PushBack_all [4; 5]%Z v123 = Ret tt v'
                /\ size_ v' = 5 /\ live v' = [1; 2; 3; 4; 5]%Z.
Proof.
  split; [exact well_formed_v123|].
  destruct (PushBack_appends v123 well_formed_v123) as (_ & _ & H).
  apply (H [4; 5]%Z); [by vm_compute|done].
Defined.

(** C8 at [7,7,7] and [7,7,7,7]. *)
Lemma comparison_operators_witness :
  in_bounds v777 /\ in_bounds v7777
  /\ operator_lt v777 v7777 = Some true
  /\ operator_ge v777 v7777 = Some false.
Proof.
  assert (in_bounds v777) as H1 by (by vm_compute).
  assert (in_bounds v7777) as H2 by (by vm_compute).
  split_and!; [done|done|..];
    destruct (comparison_operators v777 v7777 H1 H2)
      as (_ & Hlt & _ & _ & _ & _ & Hge & _).
  - exact Hlt.
  - exact Hge.
Defined.

(** C9 at [v123]: [At(3)] throws, [At(2)] returns. *)
Lemma At_checks_bounds_witness :
  in_bounds v123
  /\ At 3 v123 = Throw out_of_range v123
  /\ exists x, At 2 v123 = Ret x v123.
Proof.
  assert (in_bounds v123) as H1 by (by vm_compute).
  split_and!; [done|..].
  - apply (At_checks_bounds v123 3 H1).
  - destruct (At_checks_bounds v123 2 H1) as (_ & _ & H & _).
    destruct H as (x & _ & Hx); [by vm_compute|]. by exists x.
Defined.

(** C1. The copy of a vector with size 3 and capacity 4 has the source's
    elements and size, and an array of 3 slots, but [GetCapacity()] on it
    returns 4, the capacity of the source, not its size. *)
Theorem copy_reports_source_capacity :
  (PushBack 1%Z ;; PushBack 2%Z ;; PushBack 3%Z) SimpleVector_default = Ret tt v123
  /\ size_ v123 = 3 /\ capacity_ v123 = 4
  /\ SimpleVector_copy v123 = Ret v123_copy tt
  /\ live v123_copy = live v123 /\ size_ v123_copy = size_ v123
  /\ len (raw_ptr_ v123_copy) = size_ v123
  /\ GetCapacity v123_copy = Ret 4 v123_copy.
Proof. split_and!; reflexivity. Qed.

(** C2. With asserts enabled, [PopBack()] on the one-element vector [{1}]
    stops at [assert(IsEmpty())]. *)
Theorem PopBack_assertion_inverted :
  SimpleVector_init [1]%Z = Ret (mkVector 1 1 [1]%Z) tt
  /\ IsEmpty (mkVector 1 1 [1]%Z) = Ret false (mkVector 1 1 [1]%Z)
  /\ PopBack (mkVector 1 1 [1]%Z) = AssertFail.
Proof. split_and!; reflexivity. Qed.

(** C3. With asserts enabled, [Insert(begin(), 9)] on an empty vector stops
    at [assert(pos > begin() || pos < end())]. *)
Theorem Insert_empty_assertion_fires :
  Insert 0 9%Z (@SimpleVector_default Z) = AssertFail.
Proof. reflexivity. Qed.

(** C4. [Resize(2)] on [{1, 2, 3}] calls [std::fill] on the range
    [begin() + 3, begin() + 2), which is not a valid range. *)
Theorem Resize_smaller_undefined :
  SimpleVector_init [1; 2; 3]%Z = Ret (mkVector 3 3 [1; 2; 3]%Z) tt
  /\ std_fill 3 2 0%Z [1; 2; 3]%Z = None
  /\ Resize 2 (mkVector 3 3 [1; 2; 3]%Z) = Undefined.
Proof. split_and!; reflexivity. Qed.

(** C7. With asserts enabled, [Insert(begin(), 9)] then [Erase(begin())] on
    an empty vector stops at the assertion of [Insert]. *)
Theorem Insert_Erase_empty_aborts :
  (Insert 0 9%Z ;; Erase 0) (@SimpleVector_default Z) = AssertFail.
Proof. reflexivity. Qed.

(** C10. The copy of a vector with size 3 and capacity 4 reports capacity 4
    over an array of 3 slots, so the class invariant fails for it, and the
    next [PushBack] writes slot 3 of that array. *)
Theorem copy_breaks_invariant :
  (PushBack 1%Z ;; PushBack 2%Z ;; PushBack 3%Z) SimpleVector_default = Ret tt v123
  /\ representation_ok v123
  /\ SimpleVector_copy v123 = Ret v123_copy tt
  /\ capacity_ v123_copy = 4 /\ len (raw_ptr_ v123_copy) = 3
  /\ ~ representation_ok v123_copy
  /\ PushBack 4%Z v123_copy = Undefined.
Proof.
  split_and!; try reflexivity.
  - split; [by vm_compute|reflexivity].
  - intros [_ H]. by vm_compute in H.
Qed.
End DebugBuild.

(** * [SimpleVector<int>] in a release build *)

Section ReleaseBuild.
#[local] Existing Instance release_build.

(** With [-DNDEBUG] the same calls return. *)
Example release_PopBack :
  PopBack (mkVector 1 1 [1]%Z) = Ret tt (mkVector 0 1 [1]%Z).
Proof. reflexivity. Qed.

Example release_Insert_empty :
  Insert 0 9%Z (@SimpleVector_default Z) = Ret 0 (mkVector 1 1 [9]%Z).
Proof. reflexivity. Qed.

Example release_Insert_Erase_empty :
  (Insert 0 9%Z ;; Erase 0) (@SimpleVector_default Z) = Ret 0 (mkVector 0 1 [9]%Z).
Proof. reflexivity. Qed.

(** The shrinking [Resize] and the copy do not depend on the build. *)
Example release_Resize_smaller :
  Resize 2 (mkVector 3 3 [1; 2; 3]%Z) = Undefined.
Proof. reflexivity. Qed.

Example release_copy : SimpleVector_copy v123 = Ret v123_copy tt.
Proof. reflexivity. Qed.

(** [PopBack()] on an empty vector passes the assertion in every build and
    wraps [size_] around. *)
Example release_PopBack_empty :
  PopBack (@SimpleVector_default Z) = Ret tt (mkVector SizeT.SIZE_MAX 0 []).
Proof. reflexivity. Qed.
End ReleaseBuild.

(** * Further properties of the member functions *)

Section Coverage.
Context {T : Type} `{!Element T} `{!Build T}.
Implicit Types (v this rhs other lhs : SimpleVector T) (n i pos : N) (x : T)
  (items init : list T).

(** X1. [Erase(pos)] at a live position of a well-formed vector returns in
    every build; it returns [pos], the size drops by 1, the capacity is
    unchanged, the elements before [pos] keep their indices and every
    element after [pos] moves one index down. *)
Theorem Erase_closes_gap v pos :
  well_formed v -> pos < size_ v ->
  exists v',
    Erase pos v = Ret pos v'
    /\ well_formed v' /\ size_ v' = size_ v - 1 /\ capacity_ v' = capacity_ v
    /\ live v' = take (N.to_nat pos) (live v) ++ drop (S (N.to_nat pos)) (live v)
    /\ (forall i, i < pos -> live v' !! N.to_nat i = live v !! N.to_nat i)
    /\ (forall i, pos <= i -> live v' !! N.to_nat i = live v !! N.to_nat (i + 1)).
Proof.
  intros Hwf Hpos. destruct (well_formed_bounds v Hwf) as (Hs & Hc & Hp & Hb).
  assert (length (live v) = N.to_nat (size_ v)) as Hlive by (by apply length_live).
  destruct (Erase_spec v pos Hwf Hpos) as (v' & E & Hwf' & Hs' & Hl' & Hc').
  exists v'. split_and!; try done.
  - intros i Hi. rewrite Hl'.
    rewrite lookup_app_l by (rewrite length_take; lia).
    apply lookup_take_lt. lia.
  - intros i Hi. rewrite Hl'.
    rewrite lookup_app_r by (rewrite length_take; lia).
    rewrite length_take, lookup_drop. f_equal. lia.
Qed.

(** X2. On a non-empty vector the assertion of [Erase] passes for every
    position, so a position at or past [end()] is not rejected in any build:
    [std::move] is called on the invalid range [pos + 1, end()). *)
Theorem Erase_past_end_unchecked v pos :
  0 < size_ v -> size_ v <= pos -> Erase pos v = Undefined.
Proof.
  intros Hne Hpos. unfold Erase. unfold_monad.
  rewrite assert_true.
  2:{ rewrite (proj2 (N.ltb_lt 0 pos)) by lia. done. }
  unfold std_move. by rewrite (proj2 (N.leb_gt _ _)) by lia.
Qed.

(** X3. [Insert(pos, x)], in either overload and with [x] an object that is
    not an element of the vector, with [pos <= size_] on a well-formed vector
    that is non-empty (or in a build without asserts) returns [pos] unless a
    needed allocation fails: [x] is at index [pos], the elements before [pos] keep
    their indices, those from [pos] on move one index up, the size grows by 1
    and the capacity is unchanged when there was room and
    [max(1, 2 * capacity_)] otherwise.  When the allocation fails it throws
    [bad_alloc] and the vector is unchanged. *)
Theorem Insert_shifts_right v pos x rvalue :
  well_formed v -> pos <= size_ v -> NDEBUG = true \/ 0 < size_ v ->
  match Insert_ref rvalue pos (outside x) v with
  | Ret it v' =>
      it = pos /\ well_formed v' /\ size_ v' = size_ v + 1
      /\ live v' !! N.to_nat pos = Some x
      /\ (forall i, i < pos -> live v' !! N.to_nat i = live v !! N.to_nat i)
      /\ (forall i, pos <= i -> live v' !! N.to_nat (i + 1) = live v !! N.to_nat i)
      /\ capacity_ v' = (if size_ v <? capacity_ v then capacity_ v
                        else N.max 1 (2 * capacity_ v))
  | Throw e v' =>
      e = bad_alloc /\ v' = v /\ size_ v = capacity_ v
      /\ ArrayPtr (N.max 1 (2 * capacity_ v)) = None
  | AssertFail | Undefined => False
  end.
Proof.
  intros Hwf Hpos Hdbg. destruct (well_formed_bounds v Hwf) as (Hs & Hc & Hp & Hb).
  assert (length (live v) = N.to_nat (size_ v)) as Hlive by (by apply length_live).
  pose proof (Insert_spec v pos x Hwf Hpos Hdbg) as H.
  change (Insert_ref rvalue pos (outside x) v) with (Insert pos x v).
  destruct (Insert pos x v) as [it v'|e v'| |]; try done.
  destruct H as (-> & Hwf' & Hs' & Hl' & Hc').
  assert (length (take (N.to_nat pos) (live v)) = N.to_nat pos) as HA
    by (rewrite length_take; lia).
  split_and!; try done.
  - rewrite Hl'. by apply list_lookup_middle.
  - intros i Hi. rewrite Hl'. rewrite lookup_app_l by lia.
    apply lookup_take_lt. lia.
  - intros i Hi. rewrite Hl'. rewrite lookup_app_r by lia.
    rewrite HA. replace (N.to_nat (i + 1) - N.to_nat pos)%nat
      with (S (N.to_nat i - N.to_nat pos)) by lia.
    simpl. rewrite lookup_drop. f_equal. lia.
Qed.

(** X4. Inserting at [end()] is [PushBack]: on a well-formed vector that is
    non-empty (or in a build without asserts) [Insert(end(), x)] has the
    outcome of [PushBack(x)], final state included, and returns the old
    [end()]. *)
Theorem Insert_at_end_is_PushBack v x :
  well_formed v -> NDEBUG = true \/ 0 < size_ v ->
  Insert (size_ v) x v = (PushBack x ;; ret (size_ v)) v.
Proof.
  intros Hwf Hdbg. destruct (well_formed_bounds v Hwf) as (Hs & Hc & Hp & Hb).
  assert (length (live v) = N.to_nat (size_ v)) as Hlive by (by apply length_live).
  pose proof (position_assert_passes v (size_ v) Hdbg) as Hassert.
  assert (take (N.to_nat (size_ v)) (live v) = live v) as Htake
    by (apply take_ge; lia).
  assert (drop (N.to_nat (size_ v)) (live v) = []) as Hdrop
    by (apply drop_ge; lia).
  unfold bind at 1.
  destruct (N.ltb_spec (size_ v) (capacity_ v)) as [Hlt|Hge].
  - destruct (VectorMove_has_room v (size_ v)) as [r Hr]; [done|lia|done|].
    rewrite Htake, Hdrop in Hr. simpl in Hr.
    rewrite (Insert_from_VectorMove v _ x _ _ _ _ _ Hassert Hr Hlive).
    by rewrite PushBack_has_room.
  - assert (size_ v = capacity_ v) as Heq by lia.
    destruct (ArrayPtr (N.max 1 (2 * capacity_ v))) as [a|] eqn:Ha.
    + destruct (VectorMove_full v (size_ v) a) as [r Hr]; [done|lia|done|done|].
      rewrite Htake, Hdrop in Hr. simpl in Hr.
      rewrite (Insert_from_VectorMove v _ x _ _ _ _ _ Hassert Hr Hlive).
      by rewrite (PushBack_full v x a).
    + rewrite PushBack_throw by done.
      unfold Insert, Insert_ref, assign_from. unfold_monad. rewrite Hassert.
      by rewrite VectorMove_throw.
Qed.

(** X5. [Resize(n)] with [n >= size_] on a well-formed vector returns unless
    a needed allocation fails: the size is [n], the old elements keep their
    values, every index in [size_, n) holds [Type()], and the capacity is
    unchanged for [n <= capacity_] and [max(n, 2 * capacity_)] otherwise.
    When the allocation fails it throws [bad_alloc] and the vector is
    unchanged. *)
Theorem Resize_grows_with_defaults v n :
  well_formed v -> size_ v <= n ->
  match Resize n v with
  | Ret _ v' =>
      well_formed v' /\ size_ v' = n
      /\ (forall i, i < size_ v -> live v' !! N.to_nat i = live v !! N.to_nat i)
      /\ (forall i, size_ v <= i -> i < n -> live v' !! N.to_nat i = Some value_init)
      /\ capacity_ v' = (if n <=? capacity_ v then capacity_ v
                        else N.max n (2 * capacity_ v))
  | Throw e v' =>
      e = bad_alloc /\ v' = v /\ capacity_ v < n
      /\ ArrayPtr (N.max n (2 * capacity_ v)) = None
  | AssertFail | Undefined => False
  end.
Proof.
  intros Hwf Hn. destruct (well_formed_bounds v Hwf) as (Hs & Hc & Hp & Hb).
  assert (length (live v) = N.to_nat (size_ v)) as Hlive by (by apply length_live).
  pose proof (Resize_spec v n Hwf Hn) as H.
  destruct (Resize n v) as [[] v'|e v'| |]; try done.
  destruct H as (Hwf' & Hs' & Hl' & Hc').
  split_and!; try done.
  - intros i Hi. rewrite Hl'. apply lookup_app_l. lia.
  - intros i Hi1 Hi2. rewrite Hl'. rewrite lookup_app_r by lia.
    apply lookup_replicate_2. lia.
Qed.

(** X6. Without asserts [PopBack()] on a non-empty well-formed vector drops
    the last live element: the size falls by 1, the capacity and the array
    are unchanged and the other live elements keep their indices. *)
Theorem PopBack_drops_last v :
  NDEBUG = true -> well_formed v -> 0 < size_ v ->
  exists v',
    PopBack v = Ret tt v'
    /\ size_ v' = size_ v - 1 /\ capacity_ v' = capacity_ v
    /\ raw_ptr_ v' = raw_ptr_ v
    /\ live v' = take (N.to_nat (size_ v - 1)) (live v)
    /\ well_formed v'.
Proof.
  intros Hn Hwf Hpos. destruct (well_formed_bounds v Hwf) as (Hs & Hc & Hp & Hb).
  pose proof SizeTFacts.PTRDIFF_MAX_lt_SIZE_MAX.
  eexists. split; [apply PopBack_release; (done || lia)|]. simpl.
  split_and!; try done.
  - unfold live. simpl. rewrite take_take. f_equal. lia.
  - repeat split; simpl; (done || lia).
Qed.


(** X8. [PopBack()] on an empty vector is not rejected in any build: the
    assertion passes, [--size_] wraps to [SIZE_MAX], the class invariant is
    lost, and [At] then reads outside the array instead of throwing. *)
Theorem PopBack_empty_wraps_size v :
  well_formed v -> size_ v = 0 ->
  exists v',
    PopBack v = Ret tt v'
    /\ size_ v' = SizeT.SIZE_MAX /\ capacity_ v' = capacity_ v
    /\ raw_ptr_ v' = raw_ptr_ v
    /\ ~ representation_ok v'
    /\ (forall i, len (raw_ptr_ v) <= i -> i < SizeT.SIZE_MAX -> At i v' = Undefined).
Proof.
  intros Hwf Hz. destruct (well_formed_bounds v Hwf) as (Hs & Hc & Hp & Hb).
  pose proof SizeTFacts.PTRDIFF_MAX_lt_SIZE_MAX.
  eexists. split; [by apply PopBack_empty|]. simpl. split_and!; try done.
  - intros [Hle _]. cbn [size_ capacity_] in Hle. lia.
  - intros i Hi1 Hi2. unfold At. unfold_monad.
    rewrite (proj2 (N.leb_gt _ _)) by done.
    unfold load. rewrite lookup_ge_None_2; [done|]. unfold len in Hi1. simpl. lia.
Qed.

(** X9. [SimpleVector(size)] and [SimpleVector(size, value)] fill what they
    allocate: when the array of [size] slots is allocated the new vector has
    size and capacity [size] and every element is [Type{}], respectively
    [value], whatever the new slots held; otherwise the constructor throws
    [bad_alloc]. *)
Theorem fill_constructors n x :
  (ArrayPtr n = None ->
   SimpleVector_fill n x = Throw bad_alloc tt
   /\ SimpleVector_size n = Throw bad_alloc tt)
  /\ (is_Some (ArrayPtr n) ->
      exists v v0,
        SimpleVector_fill n x = Ret v tt
        /\ size_ v = n /\ capacity_ v = n
        /\ live v = replicate (N.to_nat n) x /\ well_formed v
        /\ SimpleVector_size n = Ret v0 tt
        /\ size_ v0 = n /\ capacity_ v0 = n
        /\ live v0 = replicate (N.to_nat n) value_init /\ well_formed v0).
Proof.
  split.
  - intros Ha. unfold SimpleVector_fill, SimpleVector_size. by rewrite Ha.
  - intros [a Ha]. destruct (ArrayPtr_Some _ _ Ha) as [Hl Hm].
    assert (forall y : T, live (mkVector n n (replicate (N.to_nat n) y))
                      = replicate (N.to_nat n) y) as Hlive.
    { intros y. unfold live. simpl. apply take_ge. rewrite length_replicate. lia. }
    do 2 eexists.
    rewrite (SimpleVector_fill_ret n x a Ha), (SimpleVector_size_ret n a Ha).
    split_and!; try reflexivity; try apply Hlive;
      (split; [apply representation_ok_replicate|done]).
Qed.

(** X10. [SimpleVector(std::initializer_list)] holds the list: when the
    array is allocated the new vector has size and capacity equal to the
    length of the list and its live elements are the list, in order;
    otherwise the constructor throws [bad_alloc]. *)
Theorem initializer_list_constructor init :
  (ArrayPtr (len init) = None -> SimpleVector_init init = Throw bad_alloc tt)
  /\ (is_Some (ArrayPtr (len init)) ->
      exists v,
        SimpleVector_init init = Ret v tt
        /\ size_ v = len init /\ capacity_ v = len init
        /\ live v = init /\ well_formed v).
Proof.
  split.
  - intros Ha. unfold SimpleVector_init. by rewrite Ha.
  - intros [a Ha]. destruct (ArrayPtr_Some _ _ Ha) as [Hl Hm].
    eexists. rewrite (SimpleVector_init_ret init a Ha).
    split_and!; try reflexivity.
    + unfold live, len. simpl. rewrite Nat2N.id. apply firstn_all.
    + split; [apply representation_ok_init|done].
Qed.

(** X11. [SimpleVector(Reserve(n))] is empty with capacity exactly [n] when
    the allocation is satisfied, and throws [bad_alloc] otherwise. *)
Theorem reserve_constructor n :
  (ArrayPtr n = None ->
   SimpleVector_from_proxy (T:=T) (Reserve_proxy n) = Throw bad_alloc tt)
  /\ (is_Some (ArrayPtr n) ->
      exists v : SimpleVector T,
        SimpleVector_from_proxy (Reserve_proxy n) = Ret v tt
        /\ size_ v = 0 /\ capacity_ v = n /\ live v = []
        /\ len (raw_ptr_ v) = n /\ well_formed v).
Proof.
  unfold SimpleVector_from_proxy, Reserve_proxy, ReserveProxyObj_GetCapacity. simpl.
  unfold SimpleVector_reserve, construct. split.
  - intros Ha. by rewrite Reserve_throw by (done || (simpl; lia)).
  - intros [a Ha]. destruct (ArrayPtr_Some _ _ Ha) as [Hl Hm].
    rewrite (Reserve_grow SimpleVector_default n a) by (done || (simpl; lia)).
    eexists. split; [reflexivity|]. simpl. unfold live. simpl.
    split_and!; try done.
    + unfold len. rewrite drop_0. lia.
    + repeat split; simpl; try lia. unfold len. rewrite drop_0. lia.
Qed.

(** X12. Moving transfers the whole state and leaves the source
    default-constructed: the move constructor and move assignment give the
    destination the size, capacity and array of the source and leave the
    source with size 0, capacity 0 and no array; [swap] exchanges the two
    states, so swapping twice restores both. *)
Theorem move_leaves_source_empty this other :
  SimpleVector_move other = (other, SimpleVector_default)
  /\ move_assignment this other = (other, SimpleVector_default)
  /\ swap this other = (other, this)
  /\ swap (swap this other).1 (swap this other).2 = (this, other).
Proof. destruct this, other. by split_and!. Qed.

Lemma std_equal_refl (r1 Z : list T) :
  (forall x, op_eq x x = true) -> std_equal r1 (r1 ++ Z) = Some true.
Proof.
  intros Hrefl. induction r1 as [|x r1 IH]; simpl; [done|]. by rewrite Hrefl.
Qed.

Lemma std_lexicographical_compare_irrefl (r1 : list T) :
  (forall x, op_lt x x = false) -> std_lexicographical_compare r1 r1 = false.
Proof.
  intros Hirr. induction r1 as [|x r1 IH]; simpl; [done|]. by rewrite Hirr.
Qed.

Lemma equal_live_equal_size lhs rhs :
  in_bounds lhs -> in_bounds rhs -> live lhs = live rhs -> size_ lhs = size_ rhs.
Proof.
  intros Hl Hr Heq. apply (f_equal length) in Heq.
  rewrite !length_live in Heq by done. lia.
Qed.

Lemma operator_eq_same_live lhs rhs :
  in_bounds lhs -> in_bounds rhs -> live lhs = live rhs ->
  (forall x, op_eq x x = true) -> operator_eq lhs rhs = Some true.
Proof.
  intros Hl Hr Heq Hrefl. unfold operator_eq.
  rewrite (equal_live_equal_size lhs rhs Hl Hr Heq), N.eqb_refl. simpl.
  rewrite (elements_live lhs Hl). simpl.
  rewrite <- (take_drop (N.to_nat (size_ rhs)) (raw_ptr_ rhs)). fold (live rhs).
  rewrite Heq. by apply std_equal_refl.
Qed.

(** X13. The comparisons look at the live elements only: two vectors with
    the same live elements compare [==] whatever their capacities and the
    contents of their unused slots (for a reflexive element [==]), and
    neither is [<] the other (for an irreflexive element [<]), so [<=] and
    [>=] hold both ways. *)
Theorem comparisons_ignore_spare_slots lhs rhs :
  in_bounds lhs -> in_bounds rhs -> live lhs = live rhs ->
  ((forall x, op_eq x x = true) ->
   operator_eq lhs rhs = Some true /\ operator_ne lhs rhs = Some false)
  /\ ((forall x, op_lt x x = false) ->
      operator_lt lhs rhs = Some false /\ operator_gt lhs rhs = Some false
      /\ operator_le lhs rhs = Some true /\ operator_ge lhs rhs = Some true).
Proof.
  intros Hl Hr Heq. split.
  - intros Hrefl. unfold operator_ne.
    by rewrite (operator_eq_same_live lhs rhs Hl Hr Heq Hrefl).
  - intros Hirr.
    unfold operator_le, operator_ge, operator_gt, operator_lt.
    rewrite (elements_live lhs Hl), (elements_live rhs Hr). simpl.
    rewrite Heq, (std_lexicographical_compare_irrefl (live rhs) Hirr). done.
Qed.

(** X14. A copy compares equal to its source: for a source whose live range
    lies in its array and a reflexive element [==], the copy constructor
    either throws [bad_alloc] or returns a vector with the source's size and
    live elements for which [copy == source] and [source == copy] are
    true. *)
Theorem copy_equals_source other :
  in_bounds other -> (forall x, op_eq x x = true) ->
  match SimpleVector_copy other with
  | Ret copy _ =>
      size_ copy = size_ other /\ live copy = live other
      /\ len (raw_ptr_ copy) = size_ other
      /\ operator_eq copy other = Some true
      /\ operator_eq other copy = Some true
  | Throw e _ => e = bad_alloc /\ ArrayPtr (size_ other) = None
  | AssertFail | Undefined => False
  end.
Proof.
  intros Hb Hrefl. destruct (ArrayPtr (size_ other)) as [a|] eqn:Ha.
  - rewrite (SimpleVector_copy_ret other a Hb Ha).
    set (copy := mkVector (size_ other) (capacity_ other) (live other)).
    assert (length (live other) = N.to_nat (size_ other)) as Hlen
      by (by apply length_live).
    assert (in_bounds copy) as Hc by (unfold in_bounds, len; simpl; lia).
    assert (live copy = live other) as Hlive.
    { unfold live at 1. simpl. apply take_ge. lia. }
    split_and!; try done.
    + unfold len. simpl. lia.
    + by apply operator_eq_same_live.
    + by apply operator_eq_same_live.
  - by rewrite SimpleVector_copy_throw.
Qed.

(** X15. Copy assignment from a distinct vector whose live range lies in its
    array: when the copy cannot be allocated it throws [bad_alloc] and
    [*this] is unchanged; otherwise [*this] gets the size and the live
    elements of [rhs], whatever it held before. *)
Theorem copy_assignment_strong this rhs :
  in_bounds rhs ->
  match copy_assignment rhs this with
  | Ret _ this' =>
      size_ this' = size_ rhs /\ live this' = live rhs
      /\ SimpleVector_copy rhs = Ret this' tt
  | Throw e this' =>
      e = bad_alloc /\ this' = this /\ ArrayPtr (size_ rhs) = None
  | AssertFail | Undefined => False
  end.
Proof.
  intros Hb. unfold copy_assignment.
  destruct (ArrayPtr (size_ rhs)) as [a|] eqn:Ha.
  - rewrite (SimpleVector_copy_ret rhs a Hb Ha). simpl.
    assert (length (live rhs) = N.to_nat (size_ rhs)) as Hlen
      by (by apply length_live).
    split_and!; [done| |done]. unfold live at 1. simpl. apply take_ge. lia.
  - by rewrite SimpleVector_copy_throw.
Qed.

(** X16. [operator[]] and [At] agree inside the live range: for
    [index < size_] both return the live element at [index] and leave the
    vector unchanged, in every build.  For [index >= size_] [At] throws
    [out_of_range], while [operator[]] stops at its assertion when asserts
    are enabled. *)
Theorem subscript_agrees_with_At v i :
  in_bounds v ->
  (i < size_ v ->
   exists x, live v !! N.to_nat i = Some x
             /\ subscript i v = Ret x v /\ At i v = Ret x v)
  /\ (size_ v <= i ->
      At i v = Throw out_of_range v
      /\ (NDEBUG = false -> subscript i v = AssertFail)).
Proof.
  intros Hb. destruct (At_spec v i Hb) as [Hthrow Hret]. split.
  - intros Hi. destruct (Hret Hi) as (x & Hx & Hat). exists x.
    split_and!; [done| |done].
    unfold subscript. unfold_monad.
    rewrite assert_true by (by apply N.ltb_lt). unfold load.
    unfold live in Hx. rewrite lookup_take_lt in Hx by lia. by rewrite Hx.
  - intros Hi. split; [by apply Hthrow|]. intros Hn.
    unfold subscript. unfold_monad.
    rewrite (proj2 (N.ltb_ge _ _)) by done. by rewrite assert_false.
Qed.

Lemma len_cons x items : len (x :: items) = len items + 1.
Proof. unfold len. simpl. lia. Qed.

Lemma PushBack_all_has_room items : forall v,
  well_formed v -> size_ v + len items <= capacity_ v ->
  exists v',
    PushBack_all items v = Ret tt v'
    /\ capacity_ v' = capacity_ v /\ size_ v' = size_ v + len items
    /\ live v' = live v ++ items /\ well_formed v'.
Proof.
  induction items as [|x rest IH]; intros v Hwf Hroom; simpl.
  - exists v. unfold ret, len. simpl.
    split_and!; [done|done|lia|by rewrite app_nil_r|done].
  - rewrite len_cons in Hroom. unfold bind.
    pose proof (PushBack_spec v x Hwf) as Hx.
    destruct (PushBack x v) as [[] v1|e v1| |]; try done.
    + destruct Hx as (Hwf1 & Hs1 & Hl1 & Hc1).
      rewrite (proj2 (N.ltb_lt _ _)) in Hc1 by lia.
      destruct (IH v1 Hwf1) as (v' & E & Hc' & Hs' & Hl' & Hwf'); [lia|].
      exists v'. rewrite len_cons.
      split_and!; [done|lia|lia| |done].
      by rewrite Hl', Hl1, <- app_assoc.
    + destruct Hx as (_ & _ & Heq & _). lia.
Qed.

(** X17. Pushing within the capacity never allocates: on a well-formed
    vector with [size_ + k <= capacity_] a run of [k] [PushBack] calls
    returns whatever the allocator would answer, appends the items in order
    and leaves the capacity unchanged. *)
Theorem PushBack_all_within_capacity v items :
  well_formed v -> size_ v + len items <= capacity_ v ->
  exists v',
    PushBack_all items v = Ret tt v'
    /\ capacity_ v' = capacity_ v /\ size_ v' = size_ v + len items
    /\ live v' = live v ++ items /\ well_formed v'.
Proof. apply PushBack_all_has_room. Qed.

(** X18. [Reserve(n)] followed by pushes that fit: on a well-formed vector
    with [capacity_ <= n], when the array of [n] slots is allocated, a run
    of [PushBack] calls with [size_ + k <= n] returns without any further
    allocation, the capacity is exactly [n] and the items follow the old
    live elements. *)
Theorem Reserve_then_PushBack_all v n items :
  well_formed v -> capacity_ v <= n -> is_Some (ArrayPtr n) ->
  size_ v + len items <= n ->
  exists v',
    (Reserve n ;; PushBack_all items) v = Ret tt v'
    /\ capacity_ v' = n /\ size_ v' = size_ v + len items
    /\ live v' = live v ++ items.
Proof.
  intros Hwf Hn [a Ha] Hroom.
  destruct (well_formed_bounds v Hwf) as (Hs & Hc & Hp & Hb).
  destruct (ArrayPtr_Some _ _ Ha) as [Hl Hm].
  assert (length (live v) = N.to_nat (size_ v)) as Hlive by (by apply length_live).
  unfold bind. rewrite (Reserve_grow v n a) by done.
  set (v1 := mkVector (size_ v) n (live v ++ drop (N.to_nat (size_ v)) a)).
  assert (well_formed v1) as Hwf1.
  { repeat split; simpl; [lia| |done]. unfold len.
    rewrite length_app, length_drop, Hlive. lia. }
  assert (live v1 = live v) as Hl1 by (by apply live_app).
  destruct (PushBack_all_has_room items v1 Hwf1) as (v' & E & Hc' & Hs' & Hl' & _);
    [simpl; lia|].
  exists v'. split_and!; [done|done|done|]. by rewrite Hl', Hl1.
Qed.


(** X20. [Clear()] keeps the storage: after [Clear()] on a well-formed
    vector [At] throws [out_of_range] for every index, and a following run
    of at most [capacity_] [PushBack] calls returns without allocating, with
    the old capacity and exactly the pushed items as live elements. *)
Theorem Clear_keeps_storage v items :
  well_formed v -> len items <= capacity_ v ->
  (forall i, exists v0, (Clear ;; At i) v = Throw out_of_range v0
                        /\ size_ v0 = 0 /\ capacity_ v0 = capacity_ v
                        /\ raw_ptr_ v0 = raw_ptr_ v)
  /\ exists v',
      (Clear ;; PushBack_all items) v = Ret tt v'
      /\ capacity_ v' = capacity_ v /\ size_ v' = len items /\ live v' = items.
Proof.
  intros Hwf Hroom. destruct (well_formed_bounds v Hwf) as (Hs & Hc & Hp & Hb).
  set (v0 := mkVector 0 (capacity_ v) (raw_ptr_ v)).
  assert (well_formed v0) as Hwf0 by (repeat split; simpl; (done || lia)).
  split.
  - intros i. exists v0. unfold bind, Clear, set_size. fold v0.
    split_and!; try done.
    apply (At_spec v0 i); [unfold len; simpl; lia|simpl; lia].
  - unfold bind, Clear, set_size. fold v0.
    destruct (PushBack_all_has_room items v0 Hwf0) as (v' & E & Hc' & Hs' & Hl' & _);
      [simpl; lia|].
    exists v'. split_and!; [done|done|simpl in Hs'; lia|].
    rewrite Hl'. unfold live. by simpl.
Qed.

(** X21. Erasing a live element and inserting it back at the same position
    restores the vector's size, capacity and live elements, without any
    allocation; with asserts enabled this needs a second element, since
    [Insert] into the emptied vector stops at its assertion. *)
Theorem Erase_Insert_roundtrip v pos x :
  well_formed v -> pos < size_ v -> live v !! N.to_nat pos = Some x ->
  NDEBUG = true \/ 1 < size_ v ->
  exists v',
    (Erase pos ;; Insert pos x) v = Ret pos v'
    /\ size_ v' = size_ v /\ capacity_ v' = capacity_ v /\ live v' = live v.
Proof.
  intros Hwf Hpos Hx Hdbg. destruct (well_formed_bounds v Hwf) as (Hs & Hc & Hp & Hb).
  destruct (Erase_spec v pos Hwf Hpos) as (v1 & E1 & Hwf1 & Hs1 & Hl1 & Hc1).
  unfold bind. rewrite E1.
  pose proof (Insert_spec v1 pos x Hwf1) as H2.
  destruct (Insert pos x v1) as [it v'|e v'| |].
  - destruct H2 as (-> & Hwf' & Hs' & Hl' & Hc'); [lia|destruct Hdbg; [by left|right; lia]|].
    exists v'. split_and!; [done|lia| |].
    + rewrite Hc', Hc1. by rewrite (proj2 (N.ltb_lt _ _)) by lia.
    + rewrite Hl', Hl1.
      assert (length (take (N.to_nat pos) (live v)) = N.to_nat pos) as HA
        by (rewrite length_take, length_live by done; lia).
      rewrite take_app_length', drop_app_length' by done.
      by apply take_drop_middle.
  - destruct H2 as (_ & _ & Heq & _); [lia|destruct Hdbg; [by left|right; lia]|]. lia.
  - destruct H2; [lia|destruct Hdbg; [by left|right; lia]].
  - destruct H2; [lia|destruct Hdbg; [by left|right; lia]].
Qed.

(** With asserts enabled and a single element the round trip stops. *)
Lemma Erase_Insert_single_debug v x :
  NDEBUG = false -> well_formed v -> size_ v = 1 ->
  (Erase 0 ;; Insert 0 x) v = AssertFail.
Proof.
  intros Hn Hwf H1.
  destruct (Erase_spec v 0 Hwf) as (v1 & E1 & _ & Hs1 & _); [lia|].
  unfold bind. rewrite E1. apply Insert_empty_debug; [done|lia].
Qed.
End Coverage.

(** * Further properties at [SimpleVector<int>] *)

Section CoverageDebug.
#[local] Existing Instance debug_build.

Lemma Z_eqb_reflexive : forall x : Z, op_eq x x = true.
Proof. intros x. apply Z.eqb_refl. Defined.

Lemma Z_ltb_irreflexive : forall x : Z, op_lt x x = false.
Proof. intros x. apply Z.ltb_irrefl. Defined.

Lemma well_formed_default_int : well_formed (@SimpleVector_default Z).
Proof. repeat split; by vm_compute. Defined.

(** X1 at [v123], position 1. *)
Lemma Erase_closes_gap_witness :
  well_formed v123 /\ 1 < size_ v123
  /\ exists v', Erase 1 v123 = Ret 1 v' /\ size_ v' = 2 /\ live v' = [1; 3]%Z.
Proof.
  assert (1 < size_ v123) as Hpos by (by vm_compute).
  split_and!; [exact well_formed_v123|exact Hpos|].
  destruct (Erase_closes_gap v123 1 well_formed_v123 Hpos)
    as (v' & E & _ & Hs & _ & Hl & _).
  exists v'. split_and!; [exact E|exact Hs|exact Hl].
Defined.

(** X2 at [v123], position 3 = [end()]. *)
Lemma Erase_past_end_unchecked_witness :
  0 < size_ v123 /\ size_ v123 <= 3 /\ Erase 3 v123 = Undefined.
Proof.
  assert (0 < size_ v123) as H1 by (by vm_compute).
  assert (size_ v123 <= 3) as H2 by (by vm_compute).
  split_and!; [exact H1|exact H2|].
  exact (Erase_past_end_unchecked v123 3 H1 H2).
Defined.

(** X3 at [v123], inserting 9 at position 1. *)
Lemma Insert_shifts_right_witness :
  well_formed v123 /\ 1 <= size_ v123 /\ (NDEBUG = true \/ 0 < size_ v123)
  /\ exists v', Insert_ref false 1 (outside 9%Z) v123 = Ret 1 v'
                /\ size_ v' = 4 /\ live v' !! 1%nat = Some 9%Z.
Proof.
  assert (1 <= size_ v123) as H1 by (by vm_compute).
  assert (NDEBUG = true \/ 0 < size_ v123) as H2 by (right; by vm_compute).
  split_and!; [exact well_formed_v123|exact H1|exact H2|].
  pose proof (Insert_shifts_right v123 1 9%Z false well_formed_v123 H1 H2) as H.
  destruct (Insert_ref false 1 (outside 9%Z) v123) as [it v'|e v'| |].
  - destruct H as (-> & _ & Hs & Hx & _). exists v'.
    split_and!; [reflexivity|exact Hs|exact Hx].
  - destruct H as (_ & _ & Heq & _). discriminate Heq.
  - destruct H.
  - destruct H.
Defined.

(** X4 at [v123]. *)
Lemma Insert_at_end_is_PushBack_witness :
  well_formed v123 /\ (NDEBUG = true \/ 0 < size_ v123)
  /\ Insert (size_ v123) 9%Z v123 = (PushBack 9%Z ;; ret (size_ v123)) v123.
Proof.
  assert (NDEBUG = true \/ 0 < size_ v123) as H2 by (right; by vm_compute).
  split_and!; [exact well_formed_v123|exact H2|].
  exact (Insert_at_end_is_PushBack v123 9%Z well_formed_v123 H2).
Defined.

(** X5 at [v123], [n = 6]. *)
Lemma Resize_grows_with_defaults_witness :
  well_formed v123 /\ size_ v123 <= 6
  /\ exists v', Resize 6 v123 = Ret tt v'
                /\ size_ v' = 6 /\ live v' !! 4%nat = Some 0%Z.
Proof.
  assert (size_ v123 <= 6) as H1 by (by vm_compute).
  split_and!; [exact well_formed_v123|exact H1|].
  pose proof (Resize_grows_with_defaults v123 6 well_formed_v123 H1) as H.
  destruct (Resize 6 v123) as [[] v'|e v'| |].
  - destruct H as (_ & Hs & _ & Hd & _). exists v'.
    split_and!; [reflexivity|exact Hs|].
    apply (Hd 4); by vm_compute.
  - destruct H as (_ & _ & _ & Hnone). discriminate Hnone.
  - destruct H.
  - destruct H.
Defined.

(** X8 at the default-constructed vector. *)
Lemma PopBack_empty_wraps_size_witness :
  well_formed (@SimpleVector_default Z) /\ size_ (@SimpleVector_default Z) = 0
  /\ exists v', PopBack (@SimpleVector_default Z) = Ret tt v'
                /\ size_ v' = SizeT.SIZE_MAX /\ At 0 v' = Undefined.
Proof.
  split_and!; [exact well_formed_default_int|reflexivity|].
  destruct (PopBack_empty_wraps_size SimpleVector_default well_formed_default_int eq_refl)
    as (v' & E & Hs & _ & _ & _ & Hat).
  exists v'. split_and!; [exact E|exact Hs|].
  apply Hat; by vm_compute.
Defined.

(** X13 at [v123] and its copy, which has no spare slot. *)
Lemma comparisons_ignore_spare_slots_witness :
  in_bounds v123 /\ in_bounds v123_copy /\ live v123 = live v123_copy
  /\ operator_eq v123 v123_copy = Some true
  /\ operator_lt v123 v123_copy = Some false.
Proof.
  assert (in_bounds v123) as H1 by (by vm_compute).
  assert (in_bounds v123_copy) as H2 by (by vm_compute).
  assert (live v123 = live v123_copy) as H3 by reflexivity.
  destruct (comparisons_ignore_spare_slots v123 v123_copy H1 H2 H3) as [Heq Hlt].
  split_and!; [exact H1|exact H2|exact H3| |].
  - exact (proj1 (Heq Z_eqb_reflexive)).
  - exact (proj1 (Hlt Z_ltb_irreflexive)).
Defined.

(** X14 at [v123]. *)
Lemma copy_equals_source_witness :
  in_bounds v123
  /\ exists copy, SimpleVector_copy v123 = Ret copy tt
                  /\ live copy = [1; 2; 3]%Z
                  /\ operator_eq copy v123 = Some true.
Proof.
  assert (in_bounds v123) as H1 by (by vm_compute).
  split; [exact H1|].
  pose proof (copy_equals_source v123 H1 Z_eqb_reflexive) as H.
  destruct (SimpleVector_copy v123) as [copy []|e []| |].
  - destruct H as (_ & Hl & _ & Heq & _). exists copy.
    split_and!; [reflexivity|exact Hl|exact Heq].
  - destruct H as (_ & Hnone). discriminate Hnone.
  - destruct H.
  - destruct H.
Defined.

(** X15 at [*this = v777], [rhs = v123]. *)
Lemma copy_assignment_strong_witness :
  in_bounds v123
  /\ exists this', copy_assignment v123 v777 = Ret tt this'
                   /\ size_ this' = 3 /\ live this' = [1; 2; 3]%Z.
Proof.
  assert (in_bounds v123) as H1 by (by vm_compute).
  split; [exact H1|].
  pose proof (copy_assignment_strong v777 v123 H1) as H.
  destruct (copy_assignment v123 v777) as [[] this'|e this'| |].
  - destruct H as (Hs & Hl & _). exists this'.
    split_and!; [reflexivity|exact Hs|exact Hl].
  - destruct H as (_ & _ & Hnone). discriminate Hnone.
  - destruct H.
  - destruct H.
Defined.

(** X16 at [v123], index 1. *)
Lemma subscript_agrees_with_At_witness :
  in_bounds v123
  /\ exists x, subscript 1 v123 = Ret x v123 /\ At 1 v123 = Ret x v123
  /\ subscript 3 v123 = AssertFail.
Proof.
  assert (in_bounds v123) as H1 by (by vm_compute).
  split; [exact H1|].
  destruct (subscript_agrees_with_At v123 1 H1) as [Hin _].
  destruct (subscript_agrees_with_At v123 3 H1) as [_ Hout].
  destruct Hin as (x & _ & Hs & Hat); [by vm_compute|].
  exists x. split_and!; [exact Hs|exact Hat|].
  apply Hout; [by vm_compute|reflexivity].
Defined.

(** X18 at [v123], [n = 8], items 4 and 5. *)
Lemma Reserve_then_PushBack_all_witness :
  well_formed v123 /\ capacity_ v123 <= 8 /\ is_Some (ArrayPtr (T:=Z) 8)
  /\ size_ v123 + len [4; 5]%Z <= 8
  /\ exists v', (Reserve 8 ;; PushBack_all [4; 5]%Z) v123 = Ret tt v'
                /\ capacity_ v' = 8 /\ live v' = [1; 2; 3; 4; 5]%Z.
Proof.
  assert (capacity_ v123 <= 8) as H1 by (by vm_compute).
  assert (is_Some (ArrayPtr (T:=Z) 8)) as H2 by (by eexists).
  assert (size_ v123 + len [4; 5]%Z <= 8) as H3 by (by vm_compute).
  split_and!; [exact well_formed_v123|exact H1|exact H2|exact H3|].
  destruct (Reserve_then_PushBack_all v123 8 [4; 5]%Z well_formed_v123 H1 H2 H3)
    as (v' & E & Hc & _ & Hl).
  exists v'. split_and!; [exact E|exact Hc|exact Hl].
Defined.


(** X20 at [v123], pushing 7 and 8 after [Clear()]. *)
Lemma Clear_keeps_storage_witness :
  well_formed v123 /\ len [7; 8]%Z <= capacity_ v123
  /\ exists v', (Clear ;; PushBack_all [7; 8]%Z) v123 = Ret tt v'
                /\ capacity_ v' = 4 /\ live v' = [7; 8]%Z.
Proof.
  assert (len [7; 8]%Z <= capacity_ v123) as H1 by (by vm_compute).
  split_and!; [exact well_formed_v123|exact H1|].
  destruct (Clear_keeps_storage v123 [7; 8]%Z well_formed_v123 H1)
    as (_ & v' & E & Hc & _ & Hl).
  exists v'. split_and!; [exact E|exact Hc|exact Hl].
Defined.

(** X21 at [v123], position 1, whose element is 2. *)
Lemma Erase_Insert_roundtrip_witness :
  well_formed v123 /\ 1 < size_ v123 /\ live v123 !! 1%nat = Some 2%Z
  /\ (NDEBUG = true \/ 1 < size_ v123)
  /\ exists v', (Erase 1 ;; Insert 1 2%Z) v123 = Ret 1 v'
                /\ live v' = [1; 2; 3]%Z /\ capacity_ v' = 4.
Proof.
  assert (1 < size_ v123) as H1 by (by vm_compute).
  assert (NDEBUG = true \/ 1 < size_ v123) as H2 by (by right).
  split_and!; [exact well_formed_v123|exact H1|reflexivity|exact H2|].
  destruct (Erase_Insert_roundtrip v123 1 2%Z well_formed_v123 H1 eq_refl H2)
    as (v' & E & _ & Hc & Hl).
  exists v'. split_and!; [exact E|exact Hl|exact Hc].
Defined.
End CoverageDebug.

Section CoverageRelease.
#[local] Existing Instance release_build.

(** X6 at [v123] with [-DNDEBUG]. *)
Lemma PopBack_drops_last_witness :
  NDEBUG = true /\ well_formed v123 /\ 0 < size_ v123
  /\ exists v', PopBack v123 = Ret tt v' /\ size_ v' = 2 /\ live v' = [1; 2]%Z.
Proof.
  assert (0 < size_ v123) as H1 by (by vm_compute).
  assert (@NDEBUG Z release_build = true) as Hn by reflexivity.
  split_and!; [exact Hn|exact well_formed_v123|exact H1|].
  destruct (PopBack_drops_last v123 Hn well_formed_v123 H1)
    as (v' & E & Hs & _ & _ & Hl & _).
  exists v'. split_and!; [exact E|exact Hs|exact Hl].
Defined.

End CoverageRelease.

Section CoverageExhausted.
#[local] Existing Instance exhausted_build.

(** X17 at [v12] with an allocator that satisfies no request: four pushes
    fit in the six slots. *)
Lemma PushBack_all_within_capacity_witness :
  well_formed v12 /\ size_ v12 + len [3; 4; 5; 6]%Z <= capacity_ v12
  /\ ArrayPtr (T:=Z) 1 = None
  /\ exists v', PushBack_all [3; 4; 5; 6]%Z v12 = Ret tt v'
                /\ capacity_ v' = 6 /\ live v' = [1; 2; 3; 4; 5; 6]%Z.
Proof.
  assert (well_formed v12) as Hwf by (repeat split; by vm_compute).
  assert (size_ v12 + len [3; 4; 5; 6]%Z <= capacity_ v12) as H1 by (by vm_compute).
  split_and!; [exact Hwf|exact H1|reflexivity|].
  destruct (PushBack_all_within_capacity v12 [3; 4; 5; 6]%Z Hwf H1)
    as (v' & E & Hc & _ & Hl & _).
  exists v'. split_and!; [exact E|exact Hc|exact Hl].
Defined.
End CoverageExhausted.

(** * Arguments that are elements of the vector, and copies *)

Section References.
Context {T : Type} `{!Element T} `{!Build T}.
Implicit Types (v other copy : SimpleVector T) (n i pos : N) (x : T).

(** [PushBack] on the copy of a vector that had spare capacity writes the
    slot after the last one of the copy's array. *)
Lemma PushBack_copy_undefined other copy x :
  representation_ok other -> size_ other < capacity_ other ->
  SimpleVector_copy other = Ret copy tt -> PushBack x copy = Undefined.
Proof.
  intros [Hs Hc] Hlt Hcopy.
  assert (size_ other <= len (raw_ptr_ other)) as Hb by (by rewrite <- Hc).
  destruct (ArrayPtr (size_ other)) as [a|] eqn:Ha.
  - rewrite (SimpleVector_copy_ret other a Hb Ha) in Hcopy. injection Hcopy as <-.
    unfold PushBack, PushBack_ref, assign_from, assign_slot, store. unfold_monad.
    rewrite (proj2 (N.ltb_lt _ _)) by done.
    pose proof (length_live other Hb) as Hlen.
    rewrite decide_False; [done|]. cbn [raw_ptr_ size_ capacity_]. lia.
  - by rewrite SimpleVector_copy_throw in Hcopy.
Qed.

(** X23. [Insert(pos, value)] reads [value] after the shift: when [value]
    refers to the live element at index [i] of the same well-formed vector,
    there is room and [i <> pos], the call returns [pos] and shifts as
    usual, but the element inserted is the one at index [i] only for
    [i < pos]; for [i > pos] it is the element at index [i - 1], which the
    shift has moved into slot [i]. *)
Theorem Insert_own_element_after_shift v pos i :
  well_formed v -> pos <= size_ v -> size_ v < capacity_ v ->
  i < size_ v -> i <> pos ->
  exists v' y,
    Insert_ref false pos (slot i) v = Ret pos v'
    /\ live v !! N.to_nat (if i <? pos then i else i - 1) = Some y
    /\ live v' = take (N.to_nat pos) (live v) ++ y :: drop (N.to_nat pos) (live v)
    /\ size_ v' = size_ v + 1 /\ capacity_ v' = capacity_ v.
Proof.
  intros Hwf Hpos Hroom Hi Hne.
  destruct (well_formed_bounds v Hwf) as (Hs & Hc & Hp & Hb).
  assert (length (live v) = N.to_nat (size_ v)) as Hlive by (by apply length_live).
  pose proof (position_assert_passes v pos (or_intror (N.le_lt_trans _ _ _ (N.le_0_l i) Hi)))
    as Hassert.
  destruct (VectorMove_has_room v pos Hwf Hpos Hroom) as [r Hr].
  set (A := take (N.to_nat pos) (live v)) in *.
  set (R := drop (N.to_nat pos) (live v)) in *.
  set (Z := drop (S (N.to_nat (size_ v))) (raw_ptr_ v)) in *.
  assert (length A = N.to_nat pos) as HA by (unfold A; rewrite length_take; lia).
  assert (length R = N.to_nat (size_ v - pos)) as HR
    by (unfold R; rewrite length_drop; lia).
  set (j := if i <? pos then i else i - 1).
  destruct (lookup_lt_is_Some_2 (live v) (N.to_nat j)) as [y Hy].
  { unfold j. destruct (i <? pos); lia. }
  assert ((A ++ r :: R ++ Z) !! N.to_nat i = Some y) as Hload.
  { unfold j in Hy. destruct (N.ltb_spec i pos) as [Hlt|Hge].
    - rewrite lookup_app_l by lia. unfold A. by rewrite lookup_take_lt by lia.
    - rewrite lookup_app_r by lia. rewrite HA.
      replace (N.to_nat i - N.to_nat pos)%nat
        with (S (N.to_nat i - N.to_nat pos - 1)) by lia.
      simpl. rewrite lookup_app_l by lia. unfold R. rewrite lookup_drop.
      rewrite <- Hy. f_equal. lia. }
  exists (mkVector (size_ v + 1) (capacity_ v) (A ++ y :: R ++ Z)), y.
  split_and!; try done.
  - unfold Insert_ref, assign_from, VectorMove_releases. unfold_monad.
    rewrite Hassert, Hr. rewrite (proj2 (N.ltb_lt _ _)) by done.
    unfold load. cbn [raw_ptr_]. rewrite Hload.
    unfold assign_slot. unfold_monad. by rewrite store_at.
  - replace (A ++ y :: R ++ Z) with ((A ++ y :: R) ++ Z) by (by rewrite <- app_assoc).
    apply live_app. rewrite length_app, HA. simpl. rewrite HR. lia.
Qed.

End References.

Section ReferencesDebug.
#[local] Existing Instance debug_build.

(** C6. Two runs in which [PushBack] does not append.  On the copy of
    [v123] (size 3, capacity 4, an array of 3 slots) [PushBack(4)] takes
    the branch [size_ < capacity_] and writes [raw_ptr_[3]], outside the
    array.  On the full vector [{1}] [PushBack(v[0])] reads its argument
    after [Reserve] has released the array that holds it. *)
Theorem PushBack_past_copied_array :
  SimpleVector_copy v123 = Ret v123_copy tt
  /\ size_ v123_copy = 3 /\ capacity_ v123_copy = 4
  /\ len (raw_ptr_ v123_copy) = 3
  /\ store (raw_ptr_ v123_copy) 3 4%Z = None
  /\ PushBack 4%Z v123_copy = Undefined
  /\ PushBack_ref false (slot 0) (mkVector 1 1 [1]%Z) = Undefined.
Proof. split_and!; reflexivity. Qed.

(** X23 at [v123]: [v.Insert(v.begin(), v[2])] inserts 2, not 3. *)
Lemma Insert_own_element_after_shift_witness :
  well_formed v123 /\ 0 <= size_ v123 /\ size_ v123 < capacity_ v123
  /\ 2 < size_ v123 /\ 2 <> 0
  /\ exists v', Insert_ref false 0 (slot 2) v123 = Ret 0 v'
                /\ live v' = [2; 1; 2; 3]%Z.
Proof.
  assert (0 <= size_ v123) as H1 by (by vm_compute).
  assert (size_ v123 < capacity_ v123) as H2 by (by vm_compute).
  assert (2 < size_ v123) as H3 by (by vm_compute).
  assert (2 <> 0) as H4 by discriminate.
  split_and!; [exact well_formed_v123|exact H1|exact H2|exact H3|exact H4|].
  destruct (Insert_own_element_after_shift v123 0 2 well_formed_v123 H1 H2 H3 H4)
    as (v' & y & E & Hy & Hl & _).
  exists v'. split; [exact E|].
  injection Hy as <-. exact Hl.
Defined.

End ReferencesDebug.
